(** * summary-issues: a shallow embedding of [main.go]

    The program regenerates the body of "summary" issues of a GitHub
    organisation from the newest relevant comment of every issue that shares
    a label with them.  Go strings are byte strings and are modelled by
    [string]; slices by [list]; the standard-library functions the program
    calls but does not define ([fmt]'s [%q], [url.QueryEscape],
    [time.Time.Format], [os.Getenv], compiled regular expressions) are the
    fields of the class [GoLib]; the GraphQL endpoint is an oracle over the
    history of calls made so far.

    Slices of pointers ([[]*comment], [[]*graphqlIssue]) are lists of values:
    the JSON decoder fills them from the objects of a response.  A JSON null
    among them, which decodes to a nil pointer that the program dereferences
    without a test, is outside the model: every statement below is about
    answers whose nodes and comments are objects.  The pointers
    of an event ([Issue], [Label], [Comment]) are options, and a dereference
    of [nil] is the outcome [Panic].  The progress lines that the program
    prints on its standard output are not part of the model. *)

From Stdlib Require Import String Ascii List Bool Arith Lia.
Import ListNotations.
Local Open Scope string_scope.
Local Open Scope list_scope.

Set Implicit Arguments.

(** String concatenation (Go's [+] on strings and [%s] in format strings);
    [++] is kept for lists. *)
Infix "+:+" := String.append (at level 60, right associativity) : string_scope.

(** ** Characters and text helpers *)

Definition newline : ascii := "010"%char.
Definition hash : ascii := "#"%char.
Definition dquote : string := String "034"%char EmptyString.
Definition nl : string := String newline EmptyString.

(** Printable ASCII other than the double quote and the backslash: the bytes
    that [strconv.Quote] copies verbatim. *)
Definition plain_char (c : ascii) : bool :=
  let n := nat_of_ascii c in
  ((32 <=? n) && (n <=? 126) && negb (n =? 34) && negb (n =? 92))%nat.

Fixpoint plain (s : string) : bool :=
  match s with
  | EmptyString => true
  | String c s' => plain_char c && plain s'
  end.

(** The part of Go's standard library and of the process environment that
    the program uses. *)
Class GoLib : Type := {
  Time : Type;
  (** [t.Format(layout)] *)
  Format : Time -> string -> string;
  (** [fmt.Sprintf("%q", s)], that is [strconv.Quote] *)
  Quote : string -> string;
  (** [url.QueryEscape] *)
  QueryEscape : string -> string;
  (** [os.Getenv] *)
  Getenv : string -> string;
  Quote_plain : forall s, plain s = true -> Quote s = dquote +:+ s +:+ dquote
}.

(** [*regexp.Regexp]: the pattern text it was compiled from and its
    [MatchString] method. *)
Record Regexp : Type := {
  re_String : string;
  MatchString : string -> bool
}.

(** [strings.Contains s p]. *)
Fixpoint contains_substring (p s : string) : bool :=
  prefix p s ||
  match s with
  | EmptyString => false
  | String _ s' => contains_substring p s'
  end.

(** [regexp.Compile(p)] for a pattern [p] without metacharacters: an
    unanchored search for the literal text. *)
Definition literalRegexp (p : string) : Regexp :=
  {| re_String := p; MatchString := contains_substring p |}.

(** ** Data model (lines 373-475) *)

Record label : Type := { Name : string }.

Definition labels : Type := list label.

Record actor : Type := { Login : string }.

Section Types.
Context `{GoLib}.

Record comment : Type := {
  c_Author : actor;
  c_Body : string;
  c_UpdatedAt : Time
}.

Definition comments : Type := list comment.

(** [g_Labels] is the field [Labels.Nodes], [g_Comments] is
    [Comments.Nodes]. *)
Record graphqlIssue : Type := {
  g_ID : string;
  g_URL : string;
  g_Title : string;
  g_Body : string;
  g_Author : actor;
  g_Labels : labels;
  g_Comments : comments
}.
End Types.

Record restIssue : Type := {
  r_ID : string;
  r_Title : string;
  r_Body : string;
  r_Author : actor;
  r_Labels : labels
}.

Record issue : Type := {
  id : string;
  title : string;
  i_labels : labels
}.

(** ** Label Set (lines 420-448) *)

(** [for _, n := range l { if n.Name == s { return true } }; return false] *)
Fixpoint contains (l : labels) (s : string) : bool :=
  match l with
  | [] => false
  | n :: l' => if Name n =? s then true else contains l' s
  end.

(** [ls := labels{}; for _, label := range l { if label.Name != "summary"
    { ls = append(ls, label) } }; return ls] *)
Definition nonSummaryLabels (l : labels) : labels :=
  fold_left
    (fun ls label => if negb (Name label =? "summary") then ls ++ [label] else ls)
    l [].

(** [strings.Join(ls, sep)] *)
Definition Join (ls : list string) (sep : string) : string := String.concat sep ls.

Section LabelFilter.
Context `{GoLib}.

Definition queryFilter (l : labels) : string :=
  let ls := fold_left (fun ls label => ls ++ [Quote (Name label)])
                      (nonSummaryLabels l) [] in
  if (List.length ls =? 0)%nat then "" else "label:" +:+ Join ls ",".

(** ** Comment Selector (lines 452-459) *)

(** The loop [for j := len(c) - 1; j >= 0; j--], with [k = j + 1]; the
    index [j] is always in range, so the last branch is never taken. *)
Fixpoint lastMatch_loop (c : comments) (r : Regexp) (k : nat) : option comment :=
  match k with
  | 0 => None
  | S j =>
      match nth_error c j with
      | Some cj => if MatchString r (c_Body cj) then Some cj
                   else lastMatch_loop c r j
      | None => None
      end
  end.

Definition lastMatch (c : comments) (r : Regexp) : option comment :=
  lastMatch_loop c r (List.length c).
End LabelFilter.

(** ** Heading Normalizer (lines 246-254)

    Both patterns have the shape: flag [(?m)], then [^], [\w*], [n] times
    [#], the group of [[^#]*], and [$]; with [n = 1] for [h1] and [n = 2]
    for [h2].  The matcher below follows the leftmost-first
    (backtracking) semantics of Go's [regexp]: under [(?m)], [^] holds at the
    start of the text and after a newline, [$] at the end of the text and
    before a newline; [\w] is [[0-9A-Za-z_]]; the negated class [[^#]] also
    matches a newline, so that the group may run over several lines. *)

Definition is_word (c : ascii) : bool :=
  let n := nat_of_ascii c in
  ((48 <=? n) && (n <=? 57) || (65 <=? n) && (n <=? 90) || (n =? 95)
   || (97 <=? n) && (n <=? 122))%nat.

(** The group of [[^#]*] and [$]: the greedy star takes one more byte whenever the rest of the
    pattern still matches afterwards, and otherwise stops where [$] holds.
    The result is the text of the group and the text after the match. *)
Fixpoint match_rest (s : string) : option (string * string) :=
  match s with
  | EmptyString => Some (EmptyString, EmptyString)
  | String c s' =>
      if Ascii.eqb c hash then None
      else match match_rest s' with
           | Some (cap, rest) => Some (String c cap, rest)
           | None => if Ascii.eqb c newline then Some (EmptyString, s) else None
           end
  end.

(** [n] times [#], then the group and [$]. *)
Fixpoint match_hashes (n : nat) (s : string) : option (string * string) :=
  match n with
  | 0 => match_rest s
  | S n' =>
      match s with
      | String c s' => if Ascii.eqb c hash then match_hashes n' s' else None
      | EmptyString => None
      end
  end.

(** The whole pattern, tried at a position where [^] holds: the greedy
    [\w*] takes a word byte first and gives it back when the rest fails. *)
Fixpoint match_heading (n : nat) (s : string) : option (string * string) :=
  match s with
  | String c s' =>
      if is_word c then
        match match_heading n s' with
        | Some m => Some m
        | None => match_hashes n s
        end
      else match_hashes n s
  | EmptyString => match_hashes n s
  end.

(** The number of [#] of the two patterns. *)
Definition h1 : nat := 1.
Definition h2 : nat := 2.

Fixpoint ends_with_newline (s : string) : bool :=
  match s with
  | EmptyString => false
  | String c EmptyString => Ascii.eqb c newline
  | String _ s' => ends_with_newline s'
  end.

(** [re.ReplaceAllString(s, "###$1")]: the text is scanned from left to
    right; [bol] says whether [^] holds at the current position.  Where the
    pattern matches, the match is replaced by [###] and the group, and the
    scan goes on after the match; elsewhere one byte is copied.  Every step
    consumes at least one byte, so [fuel] bounds the number of steps. *)
Fixpoint ReplaceAll_fuel (fuel : nat) (n : nat) (bol : bool) (s : string) : string :=
  match fuel with
  | 0 => s
  | S fuel' =>
      match (if bol then match_heading n s else None) with
      | Some (cap, rest) =>
          "###" +:+ cap +:+
          ReplaceAll_fuel fuel' n
            (match cap with EmptyString => false | _ => ends_with_newline cap end)
            rest
      | None =>
          match s with
          | EmptyString => EmptyString
          | String c s' =>
              String c (ReplaceAll_fuel fuel' n (Ascii.eqb c newline) s')
          end
      end
  end.

Definition ReplaceAllString (re : nat) (s : string) : string :=
  ReplaceAll_fuel (S (String.length s)) re true s.

(** [s = h2.ReplaceAllString(s, "###$1"); s = h1.ReplaceAllString(s, "###$1")] *)
Definition replaceHeadings (s : string) : string :=
  let s := ReplaceAllString h2 s in
  let s := ReplaceAllString h1 s in
  s.

(** ** Events and options (lines 373-390) *)

Section Events.
Context `{GoLib}.

(** [Issue], [Label] and [Comment] are pointers: [None] is [nil]. *)
Record event : Type := {
  e_Name : string;
  e_Changes_Body_From : string;
  e_Action : string;
  e_Issue : option restIssue;
  e_Label : option label;
  e_Comment : option comment
}.

Record options : Type := {
  user : string;
  opt_event : event;
  summaryCommentRegex : Regexp
}.
End Events.

(** [for _, x := range v { if s == x { return true } }; return false] *)
Fixpoint isany (s : string) (v : list string) : bool :=
  match v with
  | [] => false
  | x :: v' => if s =? x then true else isany s v'
  end.

(** ** Effects: the GraphQL endpoint

    The program talks to the tracker only through [graphql] (lines 307-371),
    with one of three documents.  A run is a function of the history of the
    calls made so far; the endpoint is an oracle that answers a call, given
    that history, with a failure (transport or API level) or with the nodes
    decoded from the response. *)

Definition error : Type := string.

Inductive result (A : Type) : Type :=
| Ok (a : A)
| Err (e : error)
| Panic.
Arguments Err {A} e.
Arguments Panic {A}.

Section Effects.
Context `{GoLib}.

Inductive call : Type :=
| SummaryIssues (query : string)
| SearchIssues (query : string)
| UpdateIssue (id body : string).

Inductive response : Type :=
| Failure (e : error)
| Success (nodes : list graphqlIssue).

Class GitHub : Type := { endpoint : list call -> call -> response }.

Definition M (A : Type) : Type := list call -> result A * list call.

Definition ret {A} (a : A) : M A := fun h => (Ok a, h).

Definition bind {A B} (m : M A) (k : A -> M B) : M B :=
  fun h =>
    match m h with
    | (Ok a, h') => k a h'
    | (Err e, h') => (Err e, h')
    | (Panic, h') => (Panic, h')
    end.

(** Dereference of a pointer that may be [nil]. *)
Definition deref {A} (p : option A) : M A :=
  fun h => match p with Some a => (Ok a, h) | None => (Panic, h) end.

Definition lift {A} (r : result A) : M A := fun h => (r, h).
End Effects.

Notation "x <- m ;; k" := (bind m (fun x => k))
  (at level 61, m at next level, right associativity).
Notation "m ;;; k" := (bind m (fun _ => k))
  (at level 61, right associativity).

Section Program.
Context `{GoLib} `{!GitHub}.

(** [graphql(document, variables, &data)]: one call to the endpoint. *)
Definition graphql (c : call) : M (list graphqlIssue) :=
  fun h =>
    match endpoint h c with
    | Failure e => (Err e, h ++ [c])
    | Success nodes => (Ok nodes, h ++ [c])
    end.

(** Lines 486-490; [q.Encode()] of the single key [q]. *)
Definition searchURL (query : string) : string :=
  Getenv "GITHUB_SERVER_URL" +:+ "/search?" +:+ "q=" +:+ QueryEscape query.

(** Lines 265-305. *)
Definition searchIssues (query : string) : M (list graphqlIssue) :=
  graphql (SearchIssues query).

(** Lines 256-263. *)
Definition summarizedIssues (user : string) (si : issue) : M (list graphqlIssue) :=
  let qf := queryFilter (i_labels si) in
  if qf =? "" then ret []
  else
    let query := "user:" +:+ user +:+ " " +:+ qf in
    searchIssues query.

(** Lines 211-223 of [generateIssueSummary]: the first line of the body. *)
Definition preamble (opts : options) (si : issue) : string :=
  let issuesWithMatchingLabels := "issues with matching labels" in
  let issuesWithMatchingLabels :=
    let qf := queryFilter (i_labels si) in
    if negb (qf =? "") then
      let query := "type:issue user:" +:+ user opts +:+ " " +:+ qf in
      "[" +:+ issuesWithMatchingLabels +:+ "](" +:+ searchURL query +:+ ")"
    else issuesWithMatchingLabels in
  let re := re_String (summaryCommentRegex opts) in
  if re =? "" then
    "_This is generated from the newest comment on "
      +:+ issuesWithMatchingLabels +:+ "._" +:+ nl
  else
    "_This is generated from the newest comment that matches the regular expression `"
      +:+ re +:+ "` on " +:+ issuesWithMatchingLabels +:+ "._" +:+ nl.

(** Lines 230-236: what one iteration of the loop writes for a source
    issue that is not skipped. *)
Definition issueSection (opts : options) (i : graphqlIssue) : string :=
  "## [" +:+ g_Title i +:+ "](" +:+ g_URL i +:+ ")" +:+ nl +:+
  match lastMatch (g_Comments i) (summaryCommentRegex opts) with
  | Some c =>
      replaceHeadings (c_Body c) +:+ nl +:+
      nl +:+ nl +:+ "_Updated "
        +:+ Format (c_UpdatedAt c) "2006-01-02 15:04:05 MST"
        +:+ " by @" +:+ Login (c_Author c) +:+ "_" +:+ nl +:+ nl
  | None => "_No update_" +:+ nl
  end.

(** Lines 225-237: one iteration, on the pair of [content] and [body]. *)
Definition summaryStep (opts : options) (si : issue)
           (st : bool * string) (i : graphqlIssue) : bool * string :=
  let (content, body) := st in
  if g_ID i =? id si then (content, body)
  else (true, body +:+ issueSection opts i).

(** Lines 211-243: the body, from the source issues that were found. *)
Definition summaryBody (opts : options) (si : issue)
           (issues : list graphqlIssue) : string :=
  let content := false in
  let body := preamble opts si in
  let (content, body) := fold_left (summaryStep opts si) issues (content, body) in
  if negb content then body +:+ nl +:+ "No matching issues." +:+ nl
  else body.

(** Lines 205-244. *)
Definition generateIssueSummary (opts : options) (si : issue) : M string :=
  issues <- summarizedIssues (user opts) si ;;
  ret (summaryBody opts si issues).

(** Lines 182-203. *)
Definition updateSummaryIssue (opts : options) (i : issue) : M unit :=
  body <- generateIssueSummary opts i ;;
  graphql (UpdateIssue (id i) body) ;;;
  ret tt.

(** Lines 143-180. *)
Definition getSummaryIssues (user : string) (labels : labels) : M (list graphqlIssue) :=
  let query := "is:open user:" +:+ user +:+ " label:summary " +:+ queryFilter labels in
  graphql (SummaryIssues query).

(** The loop of lines 130-138. *)
Fixpoint updateEach (opts : options) (issues : list graphqlIssue) : M unit :=
  match issues with
  | [] => ret tt
  | i :: issues' =>
      updateSummaryIssue opts
        {| id := g_ID i; title := g_Title i; i_labels := g_Labels i |} ;;;
      updateEach opts issues'
  end.

(** Lines 125-141. *)
Definition updateSummaryIssues (opts : options) (labels : labels) : M unit :=
  issues <- getSummaryIssues (user opts) labels ;;
  updateEach opts issues.

(** Lines 36-44 of [testableMain]: the summary issue carried by the event
    is regenerated directly. *)
Definition directUpdate (opts : options) (iss : restIssue) : M unit :=
  if contains (r_Labels iss) "summary"
     && isany (e_Action (opt_event opts)) ["edited"; "labeled"; "unlabeled"; "opened"]
  then
    updateSummaryIssue opts
      {| id := r_ID iss; title := r_Title iss; i_labels := r_Labels iss |}
  else ret tt.

(** Lines 46-58 of [testableMain]: the switch on the action. *)
Definition cascade (opts : options) (iss : restIssue) : M unit :=
  let e := opt_event opts in
  if (e_Action e =? "labeled") || (e_Action e =? "unlabeled") then
    l <- deref (e_Label e) ;;
    if Name l =? "summary" then ret tt
    else updateSummaryIssues opts [l]
  else if e_Action e =? "opened" then
    let labels := nonSummaryLabels (r_Labels iss) in
    if (List.length labels =? 0)%nat then ret tt
    else updateSummaryIssues opts labels
  else ret tt.

(** Lines 26-73; [parsed] is what [githubActionOptions] returned. *)
Definition testableMain (parsed : result options) : M unit :=
  opts <- lift parsed ;;
  let e := opt_event opts in
  if e_Name e =? "issues" then
    iss <- deref (e_Issue e) ;;
    directUpdate opts iss ;;;
    cascade opts iss
  else if e_Name e =? "issue_comment" then
    iss <- deref (e_Issue e) ;;
    let labels := nonSummaryLabels (r_Labels iss) in
    if (List.length labels =? 0)%nat then ret tt
    else updateSummaryIssues opts labels
  else ret tt.
End Program.

(** * Properties *)

Unset Implicit Arguments.

(** ** Label Set *)

Definition notSummary (x : label) : bool := negb (Name x =? "summary").

Lemma fold_left_snoc_filter (A B : Type) (p : A -> bool) (g : A -> B)
      (l : list A) (acc : list B) :
  fold_left (fun ls x => if p x then ls ++ [g x] else ls) l acc
  = acc ++ map g (filter p l).
Proof.
  revert acc; induction l as [|x l IH]; intros acc; simpl.
  - now rewrite app_nil_r.
  - rewrite IH. destruct (p x); simpl; [now rewrite <- app_assoc|reflexivity].
Qed.

Lemma nonSummaryLabels_filter (l : labels) :
  nonSummaryLabels l = filter notSummary l.
Proof.
  unfold nonSummaryLabels.
  etransitivity; [exact (fold_left_snoc_filter _ _ notSummary (fun x => x) l [])|].
  simpl. apply map_id.
Qed.

Lemma contains_false_iff (l : labels) (s : string) :
  contains l s = false <-> forall x, In x l -> Name x <> s.
Proof.
  induction l as [|n l IH]; simpl.
  - split; [intros _ x []|reflexivity].
  - destruct (String.eqb_spec (Name n) s) as [E|E].
    + split; [discriminate|]. intros Hx. exfalso. apply (Hx n); auto.
    + rewrite IH. split.
      * intros Hl x [<-|Hin]; auto.
      * intros Hl x Hin. apply Hl. now right.
Qed.

(** C4. For every label set [L], [nonSummaryLabels L] is [L] filtered by
    "the name is not summary": it holds exactly the labels of [L] with
    another name, in the order they have in [L] (it commutes with
    concatenation), and never a label named "summary". *)
Theorem nonSummaryLabels_spec (L : labels) :
  nonSummaryLabels L = filter notSummary L
  /\ contains (nonSummaryLabels L) "summary" = false
  /\ (forall x, In x (nonSummaryLabels L) <-> (In x L /\ Name x <> "summary"))
  /\ (forall L1 L2, nonSummaryLabels (L1 ++ L2)
                    = nonSummaryLabels L1 ++ nonSummaryLabels L2).
Proof.
  assert (Hin : forall x, In x (nonSummaryLabels L)
                          <-> (In x L /\ Name x <> "summary")).
  { intros x. rewrite nonSummaryLabels_filter, filter_In. unfold notSummary.
    rewrite negb_true_iff, String.eqb_neq. reflexivity. }
  repeat split.
  - apply nonSummaryLabels_filter.
  - apply contains_false_iff. intros x Hx. now apply Hin in Hx.
  - now apply Hin.
  - now apply Hin.
  - intros [H1 H2]. now apply Hin.
  - intros L1 L2. rewrite !nonSummaryLabels_filter. apply filter_app.
Qed.

Section LabelFilterFacts.
Context `{GoLib}.

Definition quotedNames (l : labels) : list string :=
  map (fun x => Quote (Name x)) (nonSummaryLabels l).

Lemma queryFilter_unfold (l : labels) :
  queryFilter l =
  match quotedNames l with
  | [] => ""
  | ls => "label:" +:+ Join ls ","
  end.
Proof.
  unfold queryFilter, quotedNames.
  assert (E : fold_left (fun ls label => ls ++ [Quote (Name label)])
                        (nonSummaryLabels l) []
              = map (fun x => Quote (Name x)) (nonSummaryLabels l)).
  { etransitivity;
      [exact (fold_left_snoc_filter _ _ (fun _ : label => true)
                (fun x => Quote (Name x)) (nonSummaryLabels l) [])|].
    simpl. f_equal. apply forallb_filter_id. now apply forallb_forall. }
  rewrite E. destruct (map _ (nonSummaryLabels l)); reflexivity.
Qed.

Lemma queryFilter_empty_iff (l : labels) :
  queryFilter l = "" <-> nonSummaryLabels l = [].
Proof.
  rewrite queryFilter_unfold. unfold quotedNames.
  destruct (nonSummaryLabels l); simpl; split; auto; discriminate.
Qed.

Lemma count_names_filter (n : string) (l : labels) :
  count_occ string_dec (map Name (filter notSummary l)) n
  = if n =? "summary" then 0
    else count_occ string_dec (map Name l) n.
Proof.
  induction l as [|x l IH]; simpl.
  - now destruct (n =? "summary").
  - unfold notSummary at 1.
    destruct (String.eqb_spec (Name x) "summary") as [E|E]; simpl.
    + rewrite IH. destruct (String.eqb_spec n "summary") as [E'|E']; auto.
      destruct (string_dec (Name x) n); congruence.
    + rewrite IH. destruct (String.eqb_spec n "summary") as [E'|E'].
      * destruct (string_dec (Name x) n); congruence.
      * reflexivity.
Qed.

(** C3, amended. For every label set [L], [queryFilter L] is empty exactly when
    [nonSummaryLabels L] is; otherwise it is [label:] followed by the
    quoted names of [nonSummaryLabels L], one entry per label and in that
    order, joined by commas.  Every name other than "summary" is listed as
    often as it occurs in [L]: exactly once when the names of [L] are
    pairwise distinct. *)
Theorem queryFilter_spec (L : labels) :
  (queryFilter L = "" <-> nonSummaryLabels L = [])
  /\ queryFilter L =
     match nonSummaryLabels L with
     | [] => ""
     | ls => "label:" +:+ Join (map (fun x => Quote (Name x)) ls) ","
     end
  /\ List.length (quotedNames L) = List.length (nonSummaryLabels L)
  /\ (forall n, count_occ string_dec (map Name (nonSummaryLabels L)) n
                = if n =? "summary" then 0
                  else count_occ string_dec (map Name L) n)
  /\ (NoDup (map Name L) ->
      forall x, In x (nonSummaryLabels L) ->
                count_occ string_dec (map Name (nonSummaryLabels L)) (Name x) = 1).
Proof.
  assert (Hcount : forall n,
             count_occ string_dec (map Name (nonSummaryLabels L)) n
             = if n =? "summary" then 0
               else count_occ string_dec (map Name L) n).
  { intros n. rewrite nonSummaryLabels_filter. apply count_names_filter. }
  split; [apply queryFilter_empty_iff|].
  split.
  { rewrite queryFilter_unfold. unfold quotedNames.
    destruct (nonSummaryLabels L); reflexivity. }
  split.
  { unfold quotedNames. apply length_map. }
  split; [exact Hcount|].
  intros Hnd x Hx. rewrite Hcount.
  rewrite nonSummaryLabels_filter in Hx. apply filter_In in Hx as [Hin Hns].
  unfold notSummary in Hns. apply negb_true_iff in Hns. rewrite Hns.
  apply (proj1 (NoDup_count_occ' string_dec (map Name L)) Hnd).
  now apply in_map.
Qed.
End LabelFilterFacts.

(** ** Comment Selector *)

Section CommentSelector.
Context `{GoLib}.

Definition matches (r : Regexp) (c : comment) : bool :=
  MatchString r (c_Body c).

Definition noneMatches (r : Regexp) (cs : comments) : bool :=
  forallb (fun y => negb (matches r y)) cs.

Lemma firstn_succ_snoc (A : Type) (l : list A) (j : nat) (x : A) :
  nth_error l j = Some x -> firstn (S j) l = firstn j l ++ [x].
Proof.
  revert j; induction l as [|a l IH]; intros [|j] Hj; simpl in *;
    try discriminate.
  - now inversion Hj.
  - f_equal. now apply IH.
Qed.

Lemma noneMatches_app (r : Regexp) (l1 l2 : comments) :
  noneMatches r (l1 ++ l2) = noneMatches r l1 && noneMatches r l2.
Proof. apply forallb_app. Qed.

(** Invariant of the backward scan: after the indices [k], [k+1], ... have
    been rejected, the answer is decided by the first [k] comments. *)
Lemma lastMatch_loop_spec (c : comments) (r : Regexp) (k : nat) :
  k <= List.length c ->
  match lastMatch_loop c r k with
  | Some x => exists older newer,
      firstn k c = older ++ x :: newer
      /\ matches r x = true /\ noneMatches r newer = true
  | None => noneMatches r (firstn k c) = true
  end.
Proof.
  induction k as [|j IH]; intros Hk; cbn [lastMatch_loop].
  - reflexivity.
  - destruct (nth_error c j) as [cj|] eqn:Ej.
    + rewrite (firstn_succ_snoc _ _ _ _ Ej).
      destruct (MatchString r (c_Body cj)) eqn:Em.
      * exists (firstn j c), []. repeat split; auto.
      * assert (Hj : j <= List.length c) by lia. specialize (IH Hj).
        destruct (lastMatch_loop c r j) as [x|].
        -- destruct IH as (older & newer & E & Hx & Hn).
           exists older, (newer ++ [cj]). rewrite E, <- app_assoc. simpl.
           repeat split; auto. rewrite noneMatches_app, Hn. simpl.
           unfold matches. now rewrite Em.
        -- rewrite noneMatches_app, IH. simpl. unfold matches. now rewrite Em.
    + apply nth_error_None in Ej. lia.
Qed.

Lemma lastMatch_cases (c : comments) (r : Regexp) :
  match lastMatch c r with
  | Some x => exists older newer,
      c = older ++ x :: newer
      /\ matches r x = true /\ noneMatches r newer = true
  | None => noneMatches r c = true
  end.
Proof.
  unfold lastMatch.
  pose proof (lastMatch_loop_spec c r _ (le_n (List.length c))) as Hs.
  now rewrite firstn_all in Hs.
Qed.

Lemma empty_pattern_matches (s : string) :
  MatchString (literalRegexp "") s = true.
Proof. destruct s; reflexivity. Qed.

(** C1. The comments are given oldest first.  [lastMatch] returns the
    matching comment that has no matching comment after it, and nothing
    when no comment matches, in particular on the empty list; with the
    empty pattern, which matches every body, that is the last comment; on
    the bodies a, MATCH-b, c and the pattern MATCH it is the second
    comment. *)
Theorem lastMatch_spec (c : comments) (r : Regexp) :
  match lastMatch c r with
  | Some x => exists older newer,
      c = older ++ x :: newer
      /\ matches r x = true /\ noneMatches r newer = true
  | None => noneMatches r c = true
  end
  /\ lastMatch [] r = None
  /\ (forall s, MatchString (literalRegexp "") s = true)
  /\ lastMatch c (literalRegexp "") = hd_error (rev c)
  /\ (forall (a1 a2 a3 : actor) (t1 t2 t3 : Time),
        lastMatch [ {| c_Author := a1; c_Body := "a"; c_UpdatedAt := t1 |};
                    {| c_Author := a2; c_Body := "MATCH-b"; c_UpdatedAt := t2 |};
                    {| c_Author := a3; c_Body := "c"; c_UpdatedAt := t3 |} ]
                  (literalRegexp "MATCH")
        = Some {| c_Author := a2; c_Body := "MATCH-b"; c_UpdatedAt := t2 |}).
Proof.
  split; [apply lastMatch_cases|].
  split; [reflexivity|].
  split; [apply empty_pattern_matches|].
  split; [|reflexivity].
  pose proof (lastMatch_cases c (literalRegexp "")) as Hs.
  destruct (lastMatch c (literalRegexp "")) as [x|].
  - destruct Hs as (older & newer & E & _ & Hn).
    destruct newer as [|y newer].
    + rewrite E, rev_app_distr. reflexivity.
    + unfold noneMatches in Hn. cbn [forallb] in Hn. unfold matches in Hn.
      rewrite empty_pattern_matches in Hn. discriminate.
  - destruct c as [|y c]; [reflexivity|].
    unfold noneMatches in Hs. cbn [forallb] in Hs. unfold matches in Hs.
    rewrite empty_pattern_matches in Hs. discriminate.
Qed.
End CommentSelector.

(** ** Heading Normalizer *)

Module Headings.

(** *** Lines of a text *)

Fixpoint lines (s : string) : list string :=
  match s with
  | EmptyString => [EmptyString]
  | String c s' =>
      if Ascii.eqb c newline then EmptyString :: lines s'
      else match lines s' with
           | l :: ls => String c l :: ls
           | [] => [String c EmptyString]
           end
  end.

Definition unlines (ls : list string) : string := String.concat nl ls.

Definition first_line (s : string) : string := hd EmptyString (lines s).

Fixpoint no_hash (s : string) : bool :=
  match s with
  | EmptyString => true
  | String c s' => negb (Ascii.eqb c hash) && no_hash s'
  end.

Fixpoint no_newline (s : string) : bool :=
  match s with
  | EmptyString => true
  | String c s' => negb (Ascii.eqb c newline) && no_newline s'
  end.

Fixpoint all_word (s : string) : bool :=
  match s with
  | EmptyString => true
  | String c s' => is_word c && all_word s'
  end.

Fixpoint hashes (n : nat) : string :=
  match n with
  | 0 => EmptyString
  | S n' => String hash (hashes n')
  end.

(** What one pattern does to one line. *)
Definition demote (n : nat) (l : string) : string :=
  match match_heading n l with
  | Some (cap, _) => "###" +:+ cap
  | None => l
  end.

(** The scan seen line by line: every line is demoted ([byLine]), or every
    line but the first, when the scan starts inside a line ([midLine]). *)
Definition byLine (n : nat) (s : string) : string :=
  unlines (map (demote n) (lines s)).

Definition midLine (n : nat) (s : string) : string :=
  unlines (first_line s :: map (demote n) (tl (lines s))).

(** *** Strings *)

Lemma append_assoc (a b c : string) : (a +:+ b) +:+ c = a +:+ b +:+ c.
Proof. induction a as [|x a IH]; simpl; [reflexivity|now rewrite IH]. Qed.

Lemma append_nil_r (a : string) : a +:+ "" = a.
Proof. induction a as [|x a IH]; simpl; [reflexivity|now rewrite IH]. Qed.

Lemma length_append (a b : string) :
  String.length (a +:+ b) = String.length a + String.length b.
Proof. induction a as [|x a IH]; simpl; [reflexivity|now rewrite IH]. Qed.

Lemma word_not_hash (c : ascii) : is_word c = true -> Ascii.eqb c hash = false.
Proof.
  intros Hw. destruct (Ascii.eqb_spec c hash) as [->|]; [discriminate|reflexivity].
Qed.

Lemma word_not_newline (c : ascii) :
  is_word c = true -> Ascii.eqb c newline = false.
Proof.
  intros Hw. destruct (Ascii.eqb_spec c newline) as [->|]; [discriminate|reflexivity].
Qed.

Lemma hash_not_newline : Ascii.eqb hash newline = false.
Proof. reflexivity. Qed.

(** *** Lines *)

Lemma lines_cons (s : string) : lines s = first_line s :: tl (lines s).
Proof.
  unfold first_line. destruct s as [|c s]; simpl; [reflexivity|].
  destruct (Ascii.eqb c newline); [reflexivity|].
  destruct (lines s); reflexivity.
Qed.

Lemma lines_newline (s : string) :
  lines (String newline s) = EmptyString :: lines s.
Proof. reflexivity. Qed.

Lemma lines_other (c : ascii) (s : string) :
  Ascii.eqb c newline = false ->
  lines (String c s) = String c (first_line s) :: tl (lines s).
Proof.
  intros Hc. simpl. rewrite Hc, (lines_cons s). reflexivity.
Qed.

Lemma first_line_other (c : ascii) (s : string) :
  Ascii.eqb c newline = false ->
  first_line (String c s) = String c (first_line s).
Proof. intros Hc. unfold first_line at 1. now rewrite lines_other. Qed.

Lemma tl_lines_other (c : ascii) (s : string) :
  Ascii.eqb c newline = false -> tl (lines (String c s)) = tl (lines s).
Proof. intros Hc. now rewrite lines_other. Qed.

Lemma unlines_cons_append (a x : string) (r : list string) :
  unlines ((a +:+ x) :: r) = a +:+ unlines (x :: r).
Proof.
  unfold unlines. simpl. destruct r; [reflexivity|]. now rewrite append_assoc.
Qed.

Lemma unlines_cons_String (c : ascii) (x : string) (r : list string) :
  unlines (String c x :: r) = String c (unlines (x :: r)).
Proof. exact (unlines_cons_append (String c EmptyString) x r). Qed.

(** *** The scan from inside a line *)

Lemma midLine_empty (n : nat) : midLine n "" = "".
Proof. reflexivity. Qed.

Lemma midLine_newline (n : nat) (s : string) :
  midLine n (String newline s) = String newline (byLine n s).
Proof.
  unfold midLine, byLine, first_line. rewrite lines_newline. simpl.
  rewrite (lines_cons s). reflexivity.
Qed.

Lemma midLine_other (n : nat) (c : ascii) (s : string) :
  Ascii.eqb c newline = false ->
  midLine n (String c s) = String c (midLine n s).
Proof.
  intros Hc. unfold midLine.
  rewrite first_line_other, tl_lines_other by assumption.
  apply unlines_cons_String.
Qed.

Lemma midLine_cons (n : nat) (c : ascii) (s : string) :
  midLine n (String c s)
  = String c (if Ascii.eqb c newline then byLine n s else midLine n s).
Proof.
  destruct (Ascii.eqb_spec c newline) as [->|Hc].
  - apply midLine_newline.
  - apply midLine_other. now apply Ascii.eqb_neq.
Qed.

(** *** The matcher on a text and on its first line *)

Definition onFirstLine (m : option (string * string)) : option (string * string) :=
  match m with
  | Some (cap, _) => Some (first_line cap, EmptyString)
  | None => None
  end.

Lemma match_rest_first_line (s : string) :
  match_rest (first_line s) = onFirstLine (match_rest s).
Proof.
  induction s as [|c s IH]; [reflexivity|].
  destruct (Ascii.eqb_spec c newline) as [->|Hc].
  - simpl. destruct (match_rest s) as [[cap rest]|]; reflexivity.
  - apply Ascii.eqb_neq in Hc. rewrite (first_line_other c s Hc).
    cbn [match_rest]. rewrite IH, Hc.
    destruct (Ascii.eqb c hash); [reflexivity|].
    destruct (match_rest s) as [[cap rest]|]; cbn [onFirstLine]; [|reflexivity].
    now rewrite (first_line_other c cap Hc).
Qed.

Lemma match_hashes_first_line (n : nat) (s : string) :
  match_hashes n (first_line s) = onFirstLine (match_hashes n s).
Proof.
  revert s; induction n as [|n IH]; intros s; [apply match_rest_first_line|].
  destruct s as [|c s]; [reflexivity|].
  destruct (Ascii.eqb_spec c newline) as [->|Hc]; [reflexivity|].
  apply Ascii.eqb_neq in Hc. rewrite (first_line_other c s Hc).
  cbn [match_hashes]. destruct (Ascii.eqb c hash); [apply IH|reflexivity].
Qed.

Lemma match_heading_first_line (n : nat) (s : string) :
  match_heading n (first_line s) = onFirstLine (match_heading n s).
Proof.
  induction s as [|c s IH]; [apply (match_hashes_first_line n "")|].
  destruct (is_word c) eqn:Hw.
  - pose proof (word_not_newline _ Hw) as Hc.
    rewrite (first_line_other c s Hc). cbn [match_heading]. rewrite Hw, IH.
    destruct (match_heading n s) as [[cap rest]|]; [reflexivity|].
    simpl onFirstLine. rewrite <- (first_line_other c s Hc).
    apply match_hashes_first_line.
  - cbn [match_heading]. rewrite Hw.
    rewrite <- (match_hashes_first_line n (String c s)).
    destruct (first_line (String c s)) as [|d l] eqn:E; [reflexivity|].
    cbn [match_heading].
    assert (Hd : d = c).
    { destruct (Ascii.eqb_spec c newline) as [->|Hc]; [discriminate E|].
      apply Ascii.eqb_neq in Hc. rewrite (first_line_other c s Hc) in E.
      now inversion E. }
    subst d. now rewrite Hw.
Qed.

(** *** What a match looks like *)

Lemma match_rest_shape (s cap rest : string) :
  match_rest s = Some (cap, rest) ->
  s = cap +:+ rest /\ no_hash cap = true
  /\ (rest = "" \/ exists t, rest = String newline t).
Proof.
  revert cap rest; induction s as [|c s IH]; intros cap rest Hm.
  - inversion Hm. auto.
  - cbn [match_rest] in Hm. destruct (Ascii.eqb c hash) eqn:Hh; [discriminate|].
    destruct (match_rest s) as [[cap' rest']|].
    + inversion Hm; subst. destruct (IH _ _ eq_refl) as (E & Hn & Hr).
      simpl. rewrite Hh, Hn. repeat split; auto. now f_equal.
    + destruct (Ascii.eqb_spec c newline) as [->|]; [|discriminate].
      inversion Hm; subst. repeat split; eauto.
Qed.

Lemma match_hashes_shape (n : nat) (s cap rest : string) :
  match_hashes n s = Some (cap, rest) ->
  exists after, s = hashes n +:+ after /\ match_rest after = Some (cap, rest).
Proof.
  revert s; induction n as [|n IH]; intros s Hm.
  - exists s. auto.
  - destruct s as [|c s]; [discriminate|]. cbn [match_hashes] in Hm.
    destruct (Ascii.eqb_spec c hash) as [->|]; [|discriminate].
    destruct (IH _ Hm) as (after & -> & Ha). exists after. auto.
Qed.

Lemma match_heading_shape (n : nat) (s cap rest : string) :
  match_heading n s = Some (cap, rest) ->
  exists w after,
    s = w +:+ hashes n +:+ after /\ all_word w = true
    /\ match_rest after = Some (cap, rest).
Proof.
  induction s as [|c s IH]; intros Hm.
  - destruct (match_hashes_shape _ _ _ _ Hm) as (after & E & Ha).
    exists "", after. auto.
  - cbn [match_heading] in Hm.
    assert (Hh : match_hashes n (String c s) = Some (cap, rest) ->
                 exists w after,
                   String c s = w +:+ hashes n +:+ after /\ all_word w = true
                   /\ match_rest after = Some (cap, rest)).
    { intros Hm'. destruct (match_hashes_shape _ _ _ _ Hm') as (after & E & Ha).
      exists "", after. auto. }
    destruct (is_word c) eqn:Hw; [|auto].
    destruct (match_heading n s) as [m|]; [|auto].
    destruct (IH Hm) as (w & after & -> & Hall & Ha).
    exists (String c w), after. simpl. rewrite Hw, Hall. auto.
Qed.

Lemma first_line_append_stop (cap rest : string) :
  rest = "" \/ (exists t, rest = String newline t) ->
  first_line (cap +:+ rest) = first_line cap.
Proof.
  intros Hr. induction cap as [|c cap IH].
  - destruct Hr as [->|[t ->]]; reflexivity.
  - destruct (Ascii.eqb_spec c newline) as [->|Hc]; [reflexivity|].
    apply Ascii.eqb_neq in Hc. simpl append.
    now rewrite !first_line_other, IH by assumption.
Qed.

Lemma tl_lines_prefix (p after : string) :
  no_newline p = true -> tl (lines (p +:+ after)) = tl (lines after).
Proof.
  induction p as [|c p IH]; intros Hp; [reflexivity|].
  simpl in Hp. apply andb_prop in Hp as [Hc Hp]. apply negb_true_iff in Hc.
  simpl append. rewrite tl_lines_other by assumption. auto.
Qed.

Lemma all_word_no_newline (w : string) : all_word w = true -> no_newline w = true.
Proof.
  induction w as [|c w IH]; [reflexivity|]. simpl. intros Hw.
  apply andb_prop in Hw as [Hc Hw]. now rewrite (word_not_newline c Hc), IH.
Qed.

Lemma hashes_no_newline (n : nat) : no_newline (hashes n) = true.
Proof. induction n as [|n IH]; [reflexivity|]. simpl. exact IH. Qed.

Lemma no_newline_append (a b : string) :
  no_newline (a +:+ b) = no_newline a && no_newline b.
Proof.
  induction a as [|c a IH]; [reflexivity|]. simpl. now rewrite IH, andb_assoc.
Qed.

Lemma no_hash_append (a b : string) :
  no_hash (a +:+ b) = no_hash a && no_hash b.
Proof.
  induction a as [|c a IH]; [reflexivity|]. simpl. now rewrite IH, andb_assoc.
Qed.

Lemma no_hash_first_line (s : string) :
  no_hash s = true -> no_hash (first_line s) = true.
Proof.
  induction s as [|c s IH]; [reflexivity|]. simpl no_hash. intros Hs.
  apply andb_prop in Hs as [Hc Hs].
  destruct (Ascii.eqb_spec c newline) as [->|Hn]; [reflexivity|].
  apply Ascii.eqb_neq in Hn. rewrite first_line_other by assumption.
  simpl. now rewrite Hc, IH.
Qed.

(** A line without [#] is no heading. *)
Lemma no_hash_no_heading (n : nat) (l : string) :
  no_hash l = true -> match_heading (S n) l = None.
Proof.
  induction l as [|c l IH]; [reflexivity|]. simpl no_hash. intros Hl.
  apply andb_prop in Hl as [Hc Hl]. apply negb_true_iff in Hc.
  cbn [match_heading match_hashes]. rewrite Hc, (IH Hl).
  now destruct (is_word c).
Qed.

Lemma onFirstLine_None (m : option (string * string)) :
  onFirstLine m = None -> m = None.
Proof. destruct m as [[cap rest]|]; [discriminate|reflexivity]. Qed.

Lemma match_rest_no_heading (n : nat) (s cap rest : string) :
  match_rest s = Some (cap, rest) -> match_heading (S n) s = None.
Proof.
  intros Hm. apply onFirstLine_None. rewrite <- match_heading_first_line.
  apply no_hash_no_heading.
  destruct (match_rest_shape _ _ _ Hm) as (-> & Hn & Hr).
  rewrite first_line_append_stop by assumption. now apply no_hash_first_line.
Qed.

(** *** The two equations of the scan *)

Lemma byLine_no_match (n : nat) (s : string) :
  match_heading n s = None -> byLine n s = midLine n s.
Proof.
  intros Hm. unfold byLine, midLine. rewrite (lines_cons s) at 1.
  cbn [map]. unfold demote at 1.
  now rewrite match_heading_first_line, Hm.
Qed.

Lemma midLine_match_rest (n : nat) (s cap rest : string) :
  match_rest s = Some (cap, rest) ->
  midLine (S n) s = cap +:+ midLine (S n) rest.
Proof.
  revert cap rest; induction s as [|c s IH]; intros cap rest Hm.
  - inversion Hm. reflexivity.
  - cbn [match_rest] in Hm. destruct (Ascii.eqb c hash); [discriminate|].
    destruct (match_rest s) as [[cap' rest']|] eqn:Es.
    + inversion Hm; subst. rewrite midLine_cons. simpl append. f_equal.
      rewrite <- (IH _ _ eq_refl).
      destruct (Ascii.eqb c newline); [|reflexivity].
      apply byLine_no_match. now apply (match_rest_no_heading n s cap' rest).
    + destruct (Ascii.eqb c newline); [|discriminate].
      inversion Hm; subst. reflexivity.
Qed.

Lemma byLine_match (n : nat) (s cap rest : string) :
  match_heading (S n) s = Some (cap, rest) ->
  byLine (S n) s = "###" +:+ cap +:+ midLine (S n) rest.
Proof.
  intros Hm.
  destruct (match_heading_shape _ _ _ _ Hm) as (w & after & E & Hw & Ha).
  unfold byLine. rewrite (lines_cons s). cbn [map]. unfold demote at 1.
  rewrite match_heading_first_line, Hm. cbn [onFirstLine].
  rewrite <- (midLine_match_rest n _ _ _ Ha). unfold midLine.
  destruct (match_rest_shape _ _ _ Ha) as (Ea & _ & Hr).
  rewrite <- (first_line_append_stop cap rest Hr), <- Ea.
  rewrite unlines_cons_append. do 3 f_equal.
  rewrite E, <- append_assoc. f_equal. apply tl_lines_prefix.
  rewrite no_newline_append, hashes_no_newline, andb_true_r.
  now apply all_word_no_newline.
Qed.

Lemma match_consumes (n : nat) (s cap rest : string) :
  match_heading (S n) s = Some (cap, rest) ->
  String.length rest < String.length s
  /\ match_heading (S n) rest = None.
Proof.
  intros Hm.
  destruct (match_heading_shape _ _ _ _ Hm) as (w & after & -> & _ & Ha).
  destruct (match_rest_shape _ _ _ Ha) as (-> & _ & Hr). split.
  - rewrite !length_append. simpl. lia.
  - destruct Hr as [->|[t ->]]; reflexivity.
Qed.

(** With enough fuel the scan is the line-by-line rewriting. *)
Lemma ReplaceAll_fuel_lines (n : nat) (fuel : nat) :
  forall (bol : bool) (s : string),
    String.length s < fuel ->
    ReplaceAll_fuel fuel (S n) bol s
    = if bol then byLine (S n) s else midLine (S n) s.
Proof.
  induction fuel as [|fuel IH]; intros bol s Hf; [lia|].
  assert (Hcopy :
            match s with
            | EmptyString => EmptyString
            | String c s' =>
                String c (ReplaceAll_fuel fuel (S n) (Ascii.eqb c newline) s')
            end = midLine (S n) s).
  { destruct s as [|c s']; [reflexivity|].
    rewrite midLine_cons, IH by (simpl in Hf; lia). reflexivity. }
  cbn [ReplaceAll_fuel]. destruct bol; [|exact Hcopy].
  destruct (match_heading (S n) s) as [[cap rest]|] eqn:Em.
  - destruct (match_consumes _ _ _ _ Em) as [Hlen Hnone].
    rewrite (byLine_match _ _ _ _ Em), IH by lia.
    do 2 f_equal.
    destruct (match cap with
              | EmptyString => false
              | String _ _ => ends_with_newline cap
              end); [now apply byLine_no_match|reflexivity].
  - rewrite Hcopy. symmetry. now apply byLine_no_match.
Qed.

Lemma ReplaceAllString_lines (n : nat) (s : string) :
  ReplaceAllString (S n) s = byLine (S n) s.
Proof.
  unfold ReplaceAllString.
  rewrite (ReplaceAll_fuel_lines n (S (String.length s)) true s); auto.
Qed.

(** More fuel than the length of the text never changes the result. *)
Lemma ReplaceAll_fuel_enough (n fuel : nat) (s : string) :
  String.length s < fuel ->
  ReplaceAll_fuel fuel (S n) true s = ReplaceAllString (S n) s.
Proof.
  intros Hf. unfold ReplaceAllString.
  rewrite !ReplaceAll_fuel_lines; auto.
Qed.

(** *** Lines there and back *)

Lemma lines_no_newline (s : string) :
  Forall (fun l => no_newline l = true) (lines s).
Proof.
  induction s as [|c s IH]; [repeat constructor|].
  destruct (Ascii.eqb c newline) eqn:Hc.
  - simpl. rewrite Hc. constructor; [reflexivity|exact IH].
  - rewrite lines_other by assumption. rewrite (lines_cons s) in IH.
    inversion IH; subst. constructor; [|assumption].
    simpl. now rewrite Hc.
Qed.

Lemma lines_single (l : string) : no_newline l = true -> lines l = [l].
Proof.
  induction l as [|c l IH]; [reflexivity|]. simpl no_newline. intros Hl.
  apply andb_prop in Hl as [Hc Hl]. apply negb_true_iff in Hc.
  rewrite lines_other by assumption. unfold first_line. now rewrite (IH Hl).
Qed.

Lemma lines_append_newline (l t : string) :
  no_newline l = true -> lines (l +:+ String newline t) = l :: lines t.
Proof.
  induction l as [|c l IH]; [reflexivity|]. simpl no_newline. intros Hl.
  apply andb_prop in Hl as [Hc Hl]. apply negb_true_iff in Hc.
  simpl append. rewrite lines_other by assumption.
  unfold first_line. now rewrite (IH Hl).
Qed.

Lemma lines_unlines (ls : list string) :
  ls <> [] -> Forall (fun l => no_newline l = true) ls ->
  lines (unlines ls) = ls.
Proof.
  induction ls as [|l ls IH]; intros Hne Hall; [congruence|].
  inversion Hall as [|? ? Hl Hls]; subst.
  destruct ls as [|l2 ls].
  - now apply lines_single.
  - change (unlines (l :: l2 :: ls))
      with (l +:+ String newline (unlines (l2 :: ls))).
    rewrite lines_append_newline by assumption.
    f_equal. apply IH; [discriminate|assumption].
Qed.

Lemma lines_not_nil (s : string) : lines s <> [].
Proof. rewrite lines_cons. discriminate. Qed.

(** *** One line *)

Lemma line_match_shape (n : nat) (l cap rest : string) :
  no_newline l = true ->
  match_heading n l = Some (cap, rest) ->
  exists w, l = w +:+ hashes n +:+ cap /\ all_word w = true
            /\ no_hash cap = true /\ no_newline cap = true /\ rest = "".
Proof.
  intros Hl Hm.
  destruct (match_heading_shape _ _ _ _ Hm) as (w & after & -> & Hw & Ha).
  destruct (match_rest_shape _ _ _ Ha) as (-> & Hn & Hr).
  rewrite !no_newline_append in Hl.
  apply andb_prop in Hl as [_ Hl]. apply andb_prop in Hl as [_ Hl].
  apply andb_prop in Hl as [Hcap Hrest].
  destruct Hr as [->|[t ->]]; [|discriminate Hrest].
  exists w. rewrite append_nil_r. auto.
Qed.

Lemma demote_no_newline (n : nat) (l : string) :
  no_newline l = true -> no_newline (demote n l) = true.
Proof.
  intros Hl. unfold demote.
  destruct (match_heading n l) as [[cap rest]|] eqn:Em; [|assumption].
  destruct (line_match_shape _ _ _ _ Hl Em) as (w & _ & _ & _ & Hcap & _).
  exact Hcap.
Qed.

Lemma match_rest_line (r : string) :
  no_hash r = true -> no_newline r = true -> match_rest r = Some (r, "").
Proof.
  induction r as [|c r IH]; [reflexivity|]. simpl. intros Hh Hn.
  apply andb_prop in Hh as [Hc Hh]. apply andb_prop in Hn as [_ Hn].
  apply negb_true_iff in Hc. now rewrite Hc, (IH Hh Hn).
Qed.

(** What [replaceHeadings] does to one line: [h2] first, then [h1]. *)
Definition rewriteLine (l : string) : string := demote h1 (demote h2 l).

(** A line that starts with three [#] matches neither pattern. *)
Lemma demoted_is_stable (n : nat) (cap : string) :
  n = h1 \/ n = h2 -> demote n ("###" +:+ cap) = "###" +:+ cap.
Proof. intros [->| ->]; reflexivity. Qed.

Lemma rewriteLine_cases (l : string) :
  (exists cap, rewriteLine l = "###" +:+ cap) \/ 
  (rewriteLine l = l /\ match_heading h1 l = None /\ match_heading h2 l = None).
Proof.
  unfold rewriteLine.
  destruct (match_heading h2 l) as [[cap rest]|] eqn:E2.
  - left. exists cap.
    replace (demote h2 l) with ("###" +:+ cap)
      by (unfold demote; now rewrite E2).
    apply demoted_is_stable. now left.
  - replace (demote h2 l) with l by (unfold demote; now rewrite E2).
    destruct (match_heading h1 l) as [[cap rest]|] eqn:E1.
    + left. exists cap. unfold demote. now rewrite E1.
    + right. repeat split; auto. unfold demote. now rewrite E1.
Qed.

Lemma rewriteLine_idempotent (l : string) :
  rewriteLine (rewriteLine l) = rewriteLine l.
Proof.
  destruct (rewriteLine_cases l) as [[cap E]|[E _]]; rewrite E; [|exact E].
  reflexivity.
Qed.

Lemma rewriteLine_no_newline (l : string) :
  no_newline l = true -> no_newline (rewriteLine l) = true.
Proof. intros Hl. unfold rewriteLine. now do 2 apply demote_no_newline. Qed.

Lemma Forall_map_no_newline (f : string -> string) (ls : list string) :
  (forall l, no_newline l = true -> no_newline (f l) = true) ->
  Forall (fun l => no_newline l = true) ls ->
  Forall (fun l => no_newline l = true) (map f ls).
Proof.
  intros Hf Hls. induction Hls; simpl; constructor; auto.
Qed.

Lemma map_not_nil (A B : Type) (f : A -> B) (l : list A) :
  l <> [] -> map f l <> [].
Proof. destruct l; [congruence|discriminate]. Qed.

Lemma replaceHeadings_lines (s : string) :
  replaceHeadings s = unlines (map rewriteLine (lines s)).
Proof.
  unfold replaceHeadings, h1, h2. rewrite !ReplaceAllString_lines.
  unfold byLine at 1. unfold byLine. rewrite lines_unlines.
  - now rewrite map_map.
  - apply map_not_nil, lines_not_nil.
  - apply Forall_map_no_newline; [apply demote_no_newline|apply lines_no_newline].
Qed.

Lemma lines_replaceHeadings (s : string) :
  lines (replaceHeadings s) = map rewriteLine (lines s).
Proof.
  rewrite replaceHeadings_lines. apply lines_unlines.
  - apply map_not_nil, lines_not_nil.
  - apply Forall_map_no_newline;
      [apply rewriteLine_no_newline|apply lines_no_newline].
Qed.

(** *** The claims on the Heading Normalizer *)

(** A line on which one of the two patterns can match: word bytes, one or
    two [#], and a remainder without [#]. *)
Definition headingLike (l : string) : Prop :=
  exists w r, all_word w = true /\ no_hash r = true
              /\ (l = w +:+ "#" +:+ r \/ l = w +:+ "##" +:+ r).

(** The rewriting as the specification words it: a line that starts with
    one or two [#] (and not three) becomes the line with three [#], every
    other line is kept. *)
Definition specLine (l : string) : string :=
  match l with
  | String "#" (String "#" (String "#" _)) => l
  | String "#" (String "#" r) => "###" +:+ r
  | String "#" r => "###" +:+ r
  | _ => l
  end.

Definition specReplaceHeadings (s : string) : string :=
  unlines (map specLine (lines s)).

Lemma rewriteLine_h1 (r : string) :
  no_hash r = true -> no_newline r = true ->
  rewriteLine ("#" +:+ r) = "###" +:+ r.
Proof.
  intros Hh Hn. unfold rewriteLine.
  assert (E2 : demote h2 ("#" +:+ r) = "#" +:+ r).
  { unfold demote. simpl. destruct r as [|c r]; [reflexivity|].
    simpl in Hh. apply andb_prop in Hh as [Hc _].
    apply negb_true_iff in Hc. now rewrite Hc. }
  rewrite E2. unfold demote. simpl. now rewrite match_rest_line.
Qed.

Lemma rewriteLine_h2 (r : string) :
  no_hash r = true -> no_newline r = true ->
  rewriteLine ("##" +:+ r) = "###" +:+ r.
Proof.
  intros Hh Hn. unfold rewriteLine.
  assert (E2 : demote h2 ("##" +:+ r) = "###" +:+ r).
  { unfold demote. simpl. now rewrite match_rest_line. }
  rewrite E2. apply demoted_is_stable. now left.
Qed.

Lemma match_is_headingLike (n : nat) (l cap rest : string) :
  n = h1 \/ n = h2 -> no_newline l = true ->
  match_heading n l = Some (cap, rest) -> headingLike l.
Proof.
  intros Hn Hl Hm.
  destruct (line_match_shape _ _ _ _ Hl Hm) as (w & E & Hw & Hc & _ & _).
  exists w, cap. repeat split; auto.
  destruct Hn as [->| ->]; [left|right]; exact E.
Qed.

Lemma rewriteLine_other (l : string) :
  no_newline l = true -> ~ headingLike l -> rewriteLine l = l.
Proof.
  intros Hl Hno. unfold rewriteLine, demote.
  destruct (match_heading h2 l) as [[cap rest]|] eqn:E2.
  { exfalso. apply Hno. apply (match_is_headingLike h2 l cap rest); auto. }
  destruct (match_heading h1 l) as [[cap rest]|] eqn:E1; [|reflexivity].
  exfalso. apply Hno. apply (match_is_headingLike h1 l cap rest); auto.
Qed.

(** C10. [replaceHeadings] is idempotent: a second pass changes nothing,
    since a line that was rewritten starts with three [#] and matches
    neither pattern, and a line that was kept is kept again. *)
Theorem replaceHeadings_idempotent (s : string) :
  replaceHeadings (replaceHeadings s) = replaceHeadings s.
Proof.
  rewrite (replaceHeadings_lines (replaceHeadings s)).
  rewrite lines_replaceHeadings, map_map.
  rewrite (map_ext _ rewriteLine rewriteLine_idempotent).
  symmetry. apply replaceHeadings_lines.
Qed.

(** A line that is no heading at all is rewritten when word bytes come
    before its [#]: the pattern starts with [\w*], outside of the group. *)
Example word_prefix_is_dropped :
  replaceHeadings ("see item#12" +:+ nl +:+ "item#12") = "see item#12" +:+ nl +:+ "###12".
Proof. reflexivity. Qed.

(** C2. The code misses what its own comment promises (replace h1 and h2
    headings with h3 headings): the heading "# C# notes" is a level-1
    heading and is not rewritten, because the group of the pattern excludes
    every further [#] on the line. *)
Lemma heading_with_inner_hash_kept :
  specLine "# C# notes" = "### C# notes"
  /\ replaceHeadings "# C# notes" = "# C# notes"
  /\ replaceHeadings "# C# notes" <> specReplaceHeadings "# C# notes".
Proof. repeat split. vm_compute. discriminate. Qed.

(** The behaviour of the two patterns as they are written.
    [replaceHeadings] applies the level-2 pattern and then
    the level-1 pattern, works line by line and keeps the number of lines.
    A line made of one or two [#] and a remainder without [#] becomes
    three [#] and that remainder; a line that is not made of word bytes,
    one or two [#] and a remainder without [#] is unchanged.  The text
    "# Title", "text", "## Sub" becomes "### Title", "text", "### Sub". *)
Theorem replaceHeadings_spec (s : string) :
  replaceHeadings s = ReplaceAllString h1 (ReplaceAllString h2 s)
  /\ List.length (lines (replaceHeadings s)) = List.length (lines s)
  /\ (forall i l,
        nth_error (lines s) i = Some l ->
        exists l',
          nth_error (lines (replaceHeadings s)) i = Some l'
          /\ (forall r, no_hash r = true ->
                        l = "#" +:+ r \/ l = "##" +:+ r -> l' = "###" +:+ r)
          /\ (~ headingLike l -> l' = l))
  /\ replaceHeadings ("# Title" +:+ nl +:+ "text" +:+ nl +:+ "## Sub")
     = "### Title" +:+ nl +:+ "text" +:+ nl +:+ "### Sub".
Proof.
  split; [reflexivity|].
  split; [now rewrite lines_replaceHeadings, length_map|].
  split; [|reflexivity].
  intros i l Hi. exists (rewriteLine l).
  assert (Hl : no_newline l = true).
  { pose proof (lines_no_newline s) as Hall.
    rewrite Forall_forall in Hall. apply Hall. eapply nth_error_In; eauto. }
  split; [|split].
  - rewrite lines_replaceHeadings. now apply map_nth_error.
  - intros r Hr [->| ->].
    + apply rewriteLine_h1; [assumption|].
      simpl in Hl. exact Hl.
    + apply rewriteLine_h2; [assumption|].
      simpl in Hl. exact Hl.
  - now apply rewriteLine_other.
Qed.

End Headings.

(** ** Summary Renderer *)

Section Renderer.
Context `{GoLib} `{!GitHub}.

(** The guard of line 226, as a filter on the source issues. *)
Definition notSelf (si : issue) (i : graphqlIssue) : bool :=
  negb (g_ID i =? id si).

Definition sections (opts : options) (issues : list graphqlIssue) : string :=
  String.concat "" (map (issueSection opts) issues).

Definition noMatchingIssues : string := nl +:+ "No matching issues." +:+ nl.

Lemma concat_empty_cons (x : string) (xs : list string) :
  String.concat "" (x :: xs) = x +:+ String.concat "" xs.
Proof.
  simpl. destruct xs; [now rewrite Headings.append_nil_r|reflexivity].
Qed.

Lemma summaryLoop_filter (opts : options) (si : issue)
      (issues : list graphqlIssue) (content : bool) (body : string) :
  fold_left (summaryStep opts si) issues (content, body)
  = (content || existsb (notSelf si) issues,
     body +:+ sections opts (filter (notSelf si) issues)).
Proof.
  revert content body; induction issues as [|i issues IH]; intros content body.
  - simpl. now rewrite orb_false_r, Headings.append_nil_r.
  - cbn [fold_left summaryStep filter existsb]. unfold notSelf at 1 3.
    destruct (g_ID i =? id si); cbn [negb].
    + rewrite IH. reflexivity.
    + rewrite IH. rewrite orb_true_r. unfold sections. cbn [map].
      now rewrite concat_empty_cons, Headings.append_assoc.
Qed.

Lemma existsb_filter_nil (A : Type) (p : A -> bool) (l : list A) :
  existsb p l = match filter p l with [] => false | _ => true end.
Proof.
  induction l as [|x l IH]; [reflexivity|]. simpl.
  destruct (p x); [reflexivity|exact IH].
Qed.

Lemma summaryBody_filter (opts : options) (si : issue)
      (issues : list graphqlIssue) :
  summaryBody opts si issues
  = preamble opts si +:+
    match filter (notSelf si) issues with
    | [] => noMatchingIssues
    | others => sections opts others
    end.
Proof.
  unfold summaryBody. rewrite summaryLoop_filter, existsb_filter_nil.
  cbn [orb]. destruct (filter (notSelf si) issues); cbn [negb].
  - unfold sections. simpl. now rewrite Headings.append_nil_r.
  - reflexivity.
Qed.

Lemma filter_idem (A : Type) (p : A -> bool) (l : list A) :
  filter p (filter p l) = filter p l.
Proof.
  induction l as [|x l IH]; [reflexivity|]. simpl.
  destruct (p x) eqn:E; simpl; [rewrite E|]; now rewrite IH.
Qed.

Lemma generateIssueSummary_unfold (opts : options) (si : issue) (h : list call) :
  generateIssueSummary opts si h =
  match summarizedIssues (user opts) si h with
  | (Ok issues, h') => (Ok (summaryBody opts si issues), h')
  | (Err e, h') => (Err e, h')
  | (Panic, h') => (Panic, h')
  end.
Proof.
  unfold generateIssueSummary, bind, ret.
  destruct (summarizedIssues (user opts) si h) as [[issues|e|] h']; reflexivity.
Qed.

(** C5. The body is the preamble followed by one section for each source
    issue whose id differs from the id of the summary issue, in the order
    of the list (or by the line "No matching issues." when there is none):
    the entries of the list that carry the id of the summary issue add
    nothing, the body is the one of the list without them.  The query
    itself does not exclude the summary issue: the list rendered by
    [generateIssueSummary] is the answer of the endpoint as it is. *)
Theorem summary_excludes_itself (opts : options) (si : issue)
        (issues : list graphqlIssue) :
  summaryBody opts si issues
  = preamble opts si +:+
    match filter (notSelf si) issues with
    | [] => noMatchingIssues
    | others => sections opts others
    end
  /\ summaryBody opts si issues
     = summaryBody opts si (filter (notSelf si) issues)
  /\ (forall i, In i (filter (notSelf si) issues) -> g_ID i <> id si)
  /\ (forall h,
        generateIssueSummary opts si h =
        match summarizedIssues (user opts) si h with
        | (Ok found, h') =>
            (Ok (summaryBody opts si (filter (notSelf si) found)), h')
        | (Err e, h') => (Err e, h')
        | (Panic, h') => (Panic, h')
        end).
Proof.
  assert (E : forall l, summaryBody opts si l
                        = summaryBody opts si (filter (notSelf si) l)).
  { intros l. now rewrite !summaryBody_filter, filter_idem. }
  split; [apply summaryBody_filter|].
  split; [apply E|].
  split.
  - intros i Hi. apply filter_In in Hi as [_ Hi]. unfold notSelf in Hi.
    apply negb_true_iff in Hi. now apply String.eqb_neq.
  - intros h. rewrite generateIssueSummary_unfold.
    destruct (summarizedIssues (user opts) si h) as [[found|e|] h'];
      [now rewrite <- E|reflexivity|reflexivity].
Qed.

(** The preamble when the filter is empty: no link. *)
Definition plainPreamble (opts : options) : string :=
  let re := re_String (summaryCommentRegex opts) in
  if re =? "" then
    "_This is generated from the newest comment on issues with matching labels._"
      +:+ nl
  else
    "_This is generated from the newest comment that matches the regular expression `"
      +:+ re +:+ "` on issues with matching labels._" +:+ nl.

Lemma preamble_no_labels (opts : options) (si : issue) :
  nonSummaryLabels (i_labels si) = [] -> preamble opts si = plainPreamble opts.
Proof.
  intros Hl. apply queryFilter_empty_iff in Hl.
  unfold preamble, plainPreamble. rewrite Hl. cbn [String.eqb negb].
  destruct (re_String (summaryCommentRegex opts) =? ""); reflexivity.
Qed.

Lemma all_self_filter (si : issue) (issues : list graphqlIssue) :
  (forall i, In i issues -> g_ID i = id si) ->
  filter (notSelf si) issues = [].
Proof.
  induction issues as [|i issues IH]; intros Hall; [reflexivity|].
  simpl. unfold notSelf at 1. rewrite (Hall i (or_introl eq_refl)).
  rewrite String.eqb_refl. apply IH. intros j Hj. apply Hall. now right.
Qed.

(** C6. A summary issue without non-summary labels makes no search: the
    call history is unchanged and the list of source issues is empty; its
    body is the preamble without a link followed by "No matching issues.".
    For any summary issue, the body is the preamble followed by that line
    whenever the list is empty or every source issue is skipped. *)
Theorem no_labels_empty_body (opts : options) (si : issue) (h : list call) :
  nonSummaryLabels (i_labels si) = [] ->
  summarizedIssues (user opts) si h = (Ok [], h)
  /\ generateIssueSummary opts si h
     = (Ok (plainPreamble opts +:+ noMatchingIssues), h)
  /\ (forall (si' : issue) (issues : list graphqlIssue),
        (forall i, In i issues -> g_ID i = id si') ->
        summaryBody opts si' issues = preamble opts si' +:+ noMatchingIssues)
  /\ (forall si' : issue,
        summaryBody opts si' [] = preamble opts si' +:+ noMatchingIssues).
Proof.
  intros Hl.
  assert (Hs : summarizedIssues (user opts) si h = (Ok [], h)).
  { unfold summarizedIssues. apply queryFilter_empty_iff in Hl.
    now rewrite Hl. }
  assert (Hskip : forall (si' : issue) (issues : list graphqlIssue),
             (forall i, In i issues -> g_ID i = id si') ->
             summaryBody opts si' issues = preamble opts si' +:+ noMatchingIssues).
  { intros si' issues Hall.
    now rewrite summaryBody_filter, all_self_filter. }
  split; [exact Hs|]. split; [|split; [exact Hskip|]].
  - rewrite generateIssueSummary_unfold, Hs.
    rewrite (Hskip si []) by (intros i []).
    now rewrite preamble_no_labels.
  - intros si'. apply Hskip. intros i [].
Qed.
End Renderer.

(** ** Update Orchestrator *)

Section Orchestrator.
Context `{GoLib} `{!GitHub}.

(** Every call of [cs], made in this order from the history [h], was
    answered with success. *)
Fixpoint allSucceed (h : list call) (cs : list call) : Prop :=
  match cs with
  | [] => True
  | c :: cs' => (exists nodes, endpoint h c = Success nodes)
                /\ allSucceed (h ++ [c]) cs'
  end.

(** The ids of the issues that [cs] asks to update. *)
Fixpoint updatedIds (cs : list call) : list string :=
  match cs with
  | [] => []
  | UpdateIssue i _ :: cs' => i :: updatedIds cs'
  | _ :: cs' => updatedIds cs'
  end.

(** A call without the body it carries. *)
Definition target (c : call) : call :=
  match c with
  | UpdateIssue i _ => UpdateIssue i ""
  | _ => c
  end.

Definition isPrefix (a b : list call) : Prop := exists c, b = a ++ c.

(** The search for the source issues of [i]: none without a filter. *)
Definition sourceQuery (opts : options) (i : issue) : list call :=
  if queryFilter (i_labels i) =? "" then []
  else [SearchIssues ("user:" +:+ user opts +:+ " " +:+ queryFilter (i_labels i))].

(** The calls that regenerate [i], bodies left out. *)
Definition regenCalls (opts : options) (i : issue) : list call :=
  sourceQuery opts i ++ [UpdateIssue (id i) ""].

Definition asIssue (n : graphqlIssue) : issue :=
  {| id := g_ID n; title := g_Title n; i_labels := g_Labels n |}.

Definition cascadeCalls (opts : options) (nodes : list graphqlIssue) : list call :=
  flat_map (fun n => regenCalls opts (asIssue n)) nodes.

Lemma allSucceed_app (h a b : list call) :
  allSucceed h (a ++ b) <-> allSucceed h a /\ allSucceed (h ++ a) b.
Proof.
  revert h; induction a as [|c a IH]; intros h; simpl.
  - rewrite app_nil_r. tauto.
  - rewrite IH, <- app_assoc. simpl. tauto.
Qed.

Lemma updatedIds_app (a b : list call) :
  updatedIds (a ++ b) = updatedIds a ++ updatedIds b.
Proof.
  induction a as [|c a IH]; [reflexivity|].
  destruct c; simpl; now rewrite IH.
Qed.

Lemma updateSummaryIssue_unfold (opts : options) (i : issue) (h : list call) :
  updateSummaryIssue opts i h =
  match sourceQuery opts i with
  | [] =>
      let c := UpdateIssue (id i) (summaryBody opts i []) in
      match endpoint h c with
      | Failure e => (Err e, h ++ [c])
      | Success _ => (Ok tt, h ++ [c])
      end
  | q :: _ =>
      match endpoint h q with
      | Failure e => (Err e, h ++ [q])
      | Success found =>
          let c := UpdateIssue (id i) (summaryBody opts i found) in
          match endpoint (h ++ [q]) c with
          | Failure e => (Err e, (h ++ [q]) ++ [c])
          | Success _ => (Ok tt, (h ++ [q]) ++ [c])
          end
      end
  end.
Proof.
  unfold updateSummaryIssue, generateIssueSummary, summarizedIssues,
    sourceQuery, searchIssues, graphql, bind, ret.
  destruct (queryFilter (i_labels i) =? "").
  - cbn zeta. destruct (endpoint h _); reflexivity.
  - destruct (endpoint h _) as [e|found]; [reflexivity|].
    cbn zeta. destruct (endpoint (h ++ _) _); reflexivity.
Qed.

(** One regeneration: on success every call succeeded and the last one
    updates [i]; on failure the history ends with the call that failed,
    nothing was updated, and the error is the one of that call. *)
Lemma updateSummaryIssue_run (opts : options) (i : issue) (h : list call) :
  match updateSummaryIssue opts i h with
  | (Ok _, h') =>
      exists cs, h' = h ++ cs /\ allSucceed h cs
                 /\ map target cs = regenCalls opts i
                 /\ updatedIds cs = [id i]
  | (Err e, h') =>
      exists pre c, h' = h ++ pre ++ [c] /\ allSucceed h pre
                    /\ endpoint (h ++ pre) c = Failure e
                    /\ updatedIds pre = []
                    /\ isPrefix (map target (pre ++ [c])) (regenCalls opts i)
                    /\ (updatedIds [c] = [] \/ updatedIds [c] = [id i])
  | (Panic, _) => False
  end.
Proof.
  rewrite updateSummaryIssue_unfold. unfold regenCalls.
  destruct (sourceQuery opts i) as [|q qs] eqn:Eq.
  - cbn zeta. destruct (endpoint h _) as [e|nodes] eqn:Ec.
    + exists [], (UpdateIssue (id i) (summaryBody opts i [])).
      rewrite app_nil_r. repeat split; auto. now exists [].
    + exists [UpdateIssue (id i) (summaryBody opts i [])].
      repeat split; eauto.
  - assert (Eqs : qs = [] /\ exists s, q = SearchIssues s).
    { unfold sourceQuery in Eq.
      destruct (queryFilter (i_labels i) =? ""); [discriminate|].
      inversion Eq. eauto. }
    destruct Eqs as [-> [s ->]].
    destruct (endpoint h (SearchIssues s)) as [e|found] eqn:Es.
    + exists [], (SearchIssues s). rewrite app_nil_r.
      repeat split; auto. now exists [UpdateIssue (id i) ""].
    + cbn zeta.
      destruct (endpoint (h ++ [SearchIssues s]) _) as [e|nodes] eqn:Ec.
      * exists [SearchIssues s], (UpdateIssue (id i) (summaryBody opts i found)).
        rewrite <- app_assoc. repeat split; eauto. now exists [].
      * exists [SearchIssues s; UpdateIssue (id i) (summaryBody opts i found)].
        rewrite <- app_assoc. repeat split; eauto.
Qed.

Lemma updateEach_cons (opts : options) (n : graphqlIssue)
      (issues : list graphqlIssue) (h : list call) :
  updateEach opts (n :: issues) h =
  match updateSummaryIssue opts (asIssue n) h with
  | (Ok _, h') => updateEach opts issues h'
  | (Err e, h') => (Err e, h')
  | (Panic, h') => (Panic, h')
  end.
Proof. reflexivity. Qed.

(** The loop over the summary issues that were found. *)
Lemma updateEach_run (opts : options) (issues : list graphqlIssue) :
  forall h,
    match updateEach opts issues h with
    | (Ok _, h') =>
        exists cs, h' = h ++ cs /\ allSucceed h cs
                   /\ map target cs = cascadeCalls opts issues
                   /\ updatedIds cs = map (@g_ID _) issues
    | (Err e, h') =>
        exists k pre c,
          k < List.length issues
          /\ h' = h ++ pre ++ [c] /\ allSucceed h pre
          /\ endpoint (h ++ pre) c = Failure e
          /\ updatedIds pre = map (@g_ID _) (firstn k issues)
          /\ isPrefix (map target (pre ++ [c])) (cascadeCalls opts issues)
    | (Panic, _) => False
    end.
Proof.
  induction issues as [|n issues IH]; intros h.
  - exists []. rewrite app_nil_r. repeat split; auto.
  - rewrite updateEach_cons.
    pose proof (updateSummaryIssue_run opts (asIssue n) h) as Hn.
    destruct (updateSummaryIssue opts (asIssue n) h) as [[[]|e|] h1].
    + destruct Hn as (cs1 & -> & Hok1 & Ht1 & Hu1).
      specialize (IH (h ++ cs1)).
      destruct (updateEach opts issues (h ++ cs1)) as [[[]|e|] h2].
      * destruct IH as (cs2 & -> & Hok2 & Ht2 & Hu2).
        exists (cs1 ++ cs2). rewrite app_assoc. repeat split.
        -- apply allSucceed_app. auto.
        -- rewrite map_app, Ht1, Ht2. reflexivity.
        -- rewrite updatedIds_app, Hu1, Hu2. reflexivity.
      * destruct IH as (k & pre & c & Hk & -> & Hok2 & Hc & Hu2 & [rest Hp]).
        exists (S k), (cs1 ++ pre), c. repeat split.
        -- simpl. lia.
        -- now rewrite <- !app_assoc.
        -- apply allSucceed_app. auto.
        -- now rewrite app_assoc.
        -- rewrite updatedIds_app, Hu1, Hu2. reflexivity.
        -- exists rest. cbn [cascadeCalls flat_map].
           fold (cascadeCalls opts issues). rewrite Hp, <- Ht1.
           now rewrite <- !app_assoc, !map_app, <- !app_assoc.
      * exact IH.
    + destruct Hn as (pre & c & -> & Hok & Hc & Hu & [rest Hp] & _).
      exists 0, pre, c. repeat split; auto.
      * simpl. lia.
      * exists (rest ++ cascadeCalls opts issues).
        cbn [cascadeCalls flat_map]. fold (cascadeCalls opts issues).
        now rewrite Hp, <- app_assoc.
    + exact Hn.
Qed.
(** The query of [getSummaryIssues]. *)
Definition summaryQuery (opts : options) (ls : labels) : call :=
  SummaryIssues ("is:open user:" +:+ user opts +:+ " label:summary "
                                 +:+ queryFilter ls).

Lemma updateSummaryIssues_unfold (opts : options) (ls : labels) (h : list call) :
  updateSummaryIssues opts ls h =
  match endpoint h (summaryQuery opts ls) with
  | Failure e => (Err e, h ++ [summaryQuery opts ls])
  | Success nodes => updateEach opts nodes (h ++ [summaryQuery opts ls])
  end.
Proof.
  unfold updateSummaryIssues, getSummaryIssues, graphql, bind, summaryQuery.
  destruct (endpoint h _); reflexivity.
Qed.

(** *** Runs abort at the first failure *)

(** The history grows by [cs]; every call succeeded, except the last one
    when the result is an error, and then the error is its answer. *)
Definition abortsAtFailure {A : Type} (x : result A * list call)
           (h : list call) : Prop :=
  exists cs,
    snd x = h ++ cs
    /\ match fst x with
       | Err e => exists pre c,
           cs = pre ++ [c] /\ allSucceed h pre
           /\ endpoint (h ++ pre) c = Failure e
       | _ => allSucceed h cs
       end.

Definition sound {A : Type} (m : M A) : Prop :=
  forall h, abortsAtFailure (m h) h.

Lemma sound_ret (A : Type) (a : A) : sound (ret a).
Proof. intros h. exists []. simpl. now rewrite app_nil_r. Qed.

Lemma sound_deref (A : Type) (p : option A) : sound (deref p).
Proof. intros h. exists []. destruct p; simpl; now rewrite app_nil_r. Qed.

Lemma sound_bind (A B : Type) (m : M A) (k : A -> M B) :
  sound m -> (forall a, sound (k a)) -> sound (bind m k).
Proof.
  intros Hm Hk h. unfold bind. destruct (Hm h) as (cs1 & E1 & T1).
  destruct (m h) as [[a|e|] h1]; simpl in E1, T1; subst h1.
  - destruct (Hk a (h ++ cs1)) as (cs2 & E2 & T2).
    exists (cs1 ++ cs2). rewrite E2, app_assoc. split; [reflexivity|].
    destruct (fst (k a (h ++ cs1))) as [b|e|].
    + apply allSucceed_app. auto.
    + destruct T2 as (pre & c & -> & Hok & Hc).
      exists (cs1 ++ pre), c. rewrite <- app_assoc. repeat split.
      * apply allSucceed_app. auto.
      * now rewrite app_assoc.
    + apply allSucceed_app. auto.
  - exists cs1. auto.
  - exists cs1. auto.
Qed.

Lemma sound_updateSummaryIssue (opts : options) (i : issue) :
  sound (updateSummaryIssue opts i).
Proof.
  intros h. pose proof (updateSummaryIssue_run opts i h) as Hr.
  destruct (updateSummaryIssue opts i h) as [[[]|e|] h'].
  - destruct Hr as (cs & -> & Hok & _). exists cs. auto.
  - destruct Hr as (pre & c & -> & Hok & Hc & _). exists (pre ++ [c]).
    split; [reflexivity|]. exists pre, c. auto.
  - contradiction.
Qed.

Lemma sound_updateSummaryIssues (opts : options) (ls : labels) :
  sound (updateSummaryIssues opts ls).
Proof.
  intros h. rewrite updateSummaryIssues_unfold.
  destruct (endpoint h (summaryQuery opts ls)) as [e|nodes] eqn:Eq.
  - exists [summaryQuery opts ls]. split; [reflexivity|].
    exists [], (summaryQuery opts ls). rewrite app_nil_r. simpl. auto.
  - pose proof (updateEach_run opts nodes (h ++ [summaryQuery opts ls])) as Hr.
    destruct (updateEach opts nodes _) as [[[]|e|] h'].
    + destruct Hr as (cs & -> & Hok & _).
      exists (summaryQuery opts ls :: cs). rewrite <- app_assoc.
      split; [reflexivity|]. simpl. eauto.
    + destruct Hr as (k & pre & c & _ & -> & Hok & Hc & _).
      exists (summaryQuery opts ls :: pre ++ [c]). rewrite <- app_assoc.
      split; [reflexivity|].
      exists (summaryQuery opts ls :: pre), c. rewrite <- app_assoc in Hc.
      repeat split; simpl; eauto.
    + contradiction.
Qed.

Lemma sound_directUpdate (opts : options) (iss : restIssue) :
  sound (directUpdate opts iss).
Proof.
  unfold directUpdate. destruct (_ && _);
    [apply sound_updateSummaryIssue|apply sound_ret].
Qed.

Lemma sound_cascade (opts : options) (iss : restIssue) :
  sound (cascade opts iss).
Proof.
  unfold cascade. destruct (_ || _).
  - apply sound_bind; [apply sound_deref|]. intros l.
    destruct (Name l =? "summary");
      [apply sound_ret|apply sound_updateSummaryIssues].
  - destruct (e_Action (opt_event opts) =? "opened"); [|apply sound_ret].
    destruct (_ =? 0)%nat; [apply sound_ret|apply sound_updateSummaryIssues].
Qed.

Lemma sound_testableMain (opts : options) : sound (testableMain (Ok opts)).
Proof.
  unfold testableMain. apply sound_bind.
  { intros h. exists []. simpl. now rewrite app_nil_r. }
  intros o. destruct (e_Name (opt_event o) =? "issues").
  - apply sound_bind; [apply sound_deref|]. intros iss.
    apply sound_bind; [apply sound_directUpdate|]. intros _.
    apply sound_cascade.
  - destruct (e_Name (opt_event o) =? "issue_comment"); [|apply sound_ret].
    apply sound_bind; [apply sound_deref|]. intros iss.
    destruct (_ =? 0)%nat; [apply sound_ret|apply sound_updateSummaryIssues].
Qed.

Lemma allSucceed_at (h cs pre post : list call) (c : call) :
  allSucceed h cs -> cs = pre ++ c :: post ->
  exists nodes, endpoint (h ++ pre) c = Success nodes.
Proof.
  intros Hok ->. apply allSucceed_app in Hok as [_ Hok]. simpl in Hok.
  exact (proj1 Hok).
Qed.

(** The first call that fails is the last call. *)
Lemma failing_call_is_last (pre0 : list call) :
  forall (h pre post : list call) (c0 c : call) (e : error),
    allSucceed h pre0 -> pre0 ++ [c0] = pre ++ c :: post ->
    endpoint (h ++ pre) c = Failure e ->
    pre = pre0 /\ c = c0 /\ post = [].
Proof.
  induction pre0 as [|a pre0 IH]; intros h pre post c0 c e Hok E Hc.
  - destruct pre as [|a' pre]; simpl in E.
    + inversion E. auto.
    + inversion E as [[Ea Er]]. destruct pre; discriminate Er.
  - destruct Hok as [[nodes Ha] Hok]. destruct pre as [|a' pre]; simpl in E.
    + inversion E; subst. rewrite app_nil_r in Hc. congruence.
    + inversion E as [[Ea Er]]. subst a'.
      assert (Hc' : endpoint ((h ++ [a]) ++ pre) c = Failure e)
        by now rewrite <- app_assoc.
      destruct (IH (h ++ [a]) pre post c0 c e Hok Er Hc') as (-> & -> & ->).
      auto.
Qed.

(** What [abortsAtFailure] says about a failing call: nothing follows it and
    its error is the result. *)
Lemma no_call_after_failure (A : Type) (x : result A * list call)
      (h : list call) :
  abortsAtFailure x h ->
  exists cs,
    snd x = h ++ cs
    /\ (forall pre c post e,
           cs = pre ++ c :: post -> endpoint (h ++ pre) c = Failure e ->
           post = [] /\ fst x = Err e)
    /\ (forall e, fst x = Err e ->
                  exists pre c, cs = pre ++ [c] /\ allSucceed h pre
                                /\ endpoint (h ++ pre) c = Failure e).
Proof.
  intros (cs & E & T). exists cs. split; [exact E|].
  assert (Hnone : allSucceed h cs ->
                  forall pre c post e,
                    cs = pre ++ c :: post -> endpoint (h ++ pre) c = Failure e ->
                    False).
  { intros Hok pre c post e Ecs Hc.
    destruct (allSucceed_at h cs pre post c Hok Ecs) as [nodes Hs]. congruence. }
  destruct (fst x) as [a|e0|].
  - split; [|discriminate]. intros pre c post e Ecs Hc.
    destruct (Hnone T pre c post e Ecs Hc).
  - destruct T as (pre0 & c0 & -> & Hok & Hc0). split.
    + intros pre c post e Ecs Hc.
      destruct (failing_call_is_last pre0 h pre post c0 c e Hok Ecs Hc)
        as (-> & -> & ->).
      split; [reflexivity|]. congruence.
    + intros e Ee. inversion Ee; subst e0. exists pre0, c0. auto.
  - split; [|discriminate]. intros pre c post e Ecs Hc.
    destruct (Hnone T pre c post e Ecs Hc).
Qed.

(** The issues updated before a failure are the first ones found. *)
Lemma updateSummaryIssues_failure (opts : options) (ls : labels)
      (h h' : list call) (e : error) :
  updateSummaryIssues opts ls h = (Err e, h') ->
  exists pre c,
    h' = h ++ pre ++ [c] /\ allSucceed h pre
    /\ endpoint (h ++ pre) c = Failure e
    /\ (forall nodes,
          endpoint h (summaryQuery opts ls) = Success nodes ->
          exists k, k < List.length nodes
                    /\ updatedIds pre = map (@g_ID _) (firstn k nodes)).
Proof.
  intros Hrun. rewrite updateSummaryIssues_unfold in Hrun.
  destruct (endpoint h (summaryQuery opts ls)) as [e1|nodes] eqn:Eq.
  - inversion Hrun; subst. exists [], (summaryQuery opts ls).
    rewrite app_nil_r. repeat split; auto. intros nodes Hn. discriminate.
  - pose proof (updateEach_run opts nodes (h ++ [summaryQuery opts ls])) as Hr.
    rewrite Hrun in Hr.
    destruct Hr as (k & pre & c & Hk & -> & Hok & Hc & Hu & _).
    exists (summaryQuery opts ls :: pre), c.
    rewrite <- app_assoc in Hc. rewrite <- app_assoc.
    repeat split; simpl; eauto.
    intros nodes' Hn. inversion Hn; subst. eauto.
Qed.

(** C9. In every run of [updateSummaryIssues], whatever its result, no
    call follows a call that failed, and the result is then the error of
    that call, unchanged: a failure aborts the run.  When the result is an
    error, the history ends with the call that failed; every earlier call
    succeeded and stays in the history, and the issues updated are the
    first [k] of the summary issues that were found, for the index [k] of
    the issue at which the run failed.  The same holds for a whole run of
    [testableMain]. *)
Theorem failure_aborts_run (opts : options) (ls : labels) (h : list call) :
  (exists cs,
      snd (updateSummaryIssues opts ls h) = h ++ cs
      /\ (forall pre c post e,
             cs = pre ++ c :: post -> endpoint (h ++ pre) c = Failure e ->
             post = [] /\ fst (updateSummaryIssues opts ls h) = Err e)
      /\ (forall e,
             fst (updateSummaryIssues opts ls h) = Err e ->
             exists pre c,
               cs = pre ++ [c] /\ allSucceed h pre
               /\ endpoint (h ++ pre) c = Failure e
               /\ (forall nodes,
                     endpoint h (summaryQuery opts ls) = Success nodes ->
                     exists k, k < List.length nodes
                               /\ updatedIds pre = map (@g_ID _) (firstn k nodes))))
  /\ (forall (o : options) (h0 : list call),
        exists cs,
          snd (testableMain (Ok o) h0) = h0 ++ cs
          /\ (forall pre c post e,
                 cs = pre ++ c :: post -> endpoint (h0 ++ pre) c = Failure e ->
                 post = [] /\ fst (testableMain (Ok o) h0) = Err e)
          /\ (forall e,
                 fst (testableMain (Ok o) h0) = Err e ->
                 exists pre c, cs = pre ++ [c] /\ allSucceed h0 pre
                               /\ endpoint (h0 ++ pre) c = Failure e)).
Proof.
  split.
  - destruct (no_call_after_failure _ _ h (sound_updateSummaryIssues opts ls h))
      as (cs & E & Hlast & _).
    exists cs. split; [exact E|]. split; [exact Hlast|].
    intros e Ee.
    destruct (updateSummaryIssues opts ls h) as [r h'] eqn:Erun.
    simpl in E, Ee. subst r.
    destruct (updateSummaryIssues_failure opts ls h h' e Erun)
      as (pre & c & Eh & Hok & Hc & Hk).
    exists pre, c. rewrite E in Eh. apply app_inv_head in Eh. auto.
  - intros o h0.
    exact (no_call_after_failure _ _ h0 (sound_testableMain o h0)).
Qed.

(** *** Events on issues *)

Lemma testableMain_issues (opts : options) (iss : restIssue) (h : list call) :
  e_Name (opt_event opts) = "issues" ->
  e_Issue (opt_event opts) = Some iss ->
  testableMain (Ok opts) h =
  match directUpdate opts iss h with
  | (Ok _, h1) => cascade opts iss h1
  | (Err e, h1) => (Err e, h1)
  | (Panic, h1) => (Panic, h1)
  end.
Proof.
  intros Hn Hi. unfold testableMain, bind, lift, deref.
  rewrite Hn, Hi. reflexivity.
Qed.

Lemma cascade_label (opts : options) (iss : restIssue) (l : label)
      (h : list call) :
  e_Action (opt_event opts) = "labeled"
  \/ e_Action (opt_event opts) = "unlabeled" ->
  e_Label (opt_event opts) = Some l ->
  cascade opts iss h =
  if Name l =? "summary" then (Ok tt, h) else updateSummaryIssues opts [l] h.
Proof.
  intros Ha Hl. unfold cascade, bind, deref. rewrite Hl.
  destruct Ha as [-> | ->]; cbn [String.eqb Ascii.eqb Bool.eqb orb];
    destruct (Name l =? "summary"); reflexivity.
Qed.

Lemma cascade_edited (opts : options) (iss : restIssue) (h : list call) :
  e_Action (opt_event opts) = "edited" -> cascade opts iss h = (Ok tt, h).
Proof. intros Ha. unfold cascade. rewrite Ha. reflexivity. Qed.




(** C8, amended.  For an [issues] event whose issue carries the summary
    label and whose action is one of edited, labeled, unlabeled, opened:
    the run starts with the direct update of that issue from the labels of
    the event, before any call of the cascade, and goes no further when it
    fails; when the action is edited, or when the changed label is itself
    summary, the run is that direct update alone, so that at most one
    update is made, of the issue of the event. *)
Theorem direct_update_first (opts : options) (iss : restIssue) (h : list call) :
  e_Name (opt_event opts) = "issues" ->
  e_Issue (opt_event opts) = Some iss ->
  contains (r_Labels iss) "summary" = true ->
  isany (e_Action (opt_event opts))
        ["edited"; "labeled"; "unlabeled"; "opened"] = true ->
  let own := {| id := r_ID iss; title := r_Title iss;
                i_labels := r_Labels iss |} in
  (exists cs rest,
      snd (updateSummaryIssue opts own h) = h ++ cs
      /\ snd (testableMain (Ok opts) h) = h ++ cs ++ rest
      /\ isPrefix (map target cs) (regenCalls opts own)
      /\ (fst (updateSummaryIssue opts own h) <> Ok tt ->
          rest = []
          /\ testableMain (Ok opts) h = updateSummaryIssue opts own h))
  /\ (e_Action (opt_event opts) = "edited"
      \/ ((e_Action (opt_event opts) = "labeled"
           \/ e_Action (opt_event opts) = "unlabeled")
          /\ exists l, e_Label (opt_event opts) = Some l
                       /\ Name l = "summary") ->
      testableMain (Ok opts) h = updateSummaryIssue opts own h
      /\ exists cs, snd (testableMain (Ok opts) h) = h ++ cs
                    /\ (updatedIds cs = [] \/ updatedIds cs = [r_ID iss])).
Proof.
  intros Hn Hi Hc Ha own.
  assert (Hd : directUpdate opts iss h = updateSummaryIssue opts own h).
  { unfold directUpdate. now rewrite Hc, Ha. }
  pose proof (testableMain_issues opts iss h Hn Hi) as Hmain.
  rewrite Hd in Hmain.
  pose proof (updateSummaryIssue_run opts own h) as Hr.
  split.
  - destruct (updateSummaryIssue opts own h) as [[[]|e|] h1] eqn:Eu.
    + destruct Hr as (cs & -> & _ & Ht & _).
      destruct (sound_cascade opts iss (h ++ cs)) as (rest & Er & _).
      exists cs, rest. rewrite Hmain, Er, <- app_assoc.
      split; [reflexivity|]. split; [reflexivity|]. split.
      * exists []. now rewrite Ht, app_nil_r.
      * intros Hne. exfalso. now apply Hne.
    + destruct Hr as (pre & c & -> & _ & _ & _ & Hp & _).
      exists (pre ++ [c]), []. rewrite Hmain, app_nil_r.
      split; [reflexivity|]. split; [reflexivity|]. split; [exact Hp|].
      intros _. split; reflexivity.
    + contradiction.
  - intros Hcase.
    assert (Hcas : forall h1, cascade opts iss h1 = (Ok tt, h1)).
    { intros h1. destruct Hcase as [He|[Hl (l & El & Es)]].
      - now apply cascade_edited.
      - rewrite (cascade_label opts iss l h1 Hl El), Es. reflexivity. }
    assert (E : testableMain (Ok opts) h = updateSummaryIssue opts own h).
    { rewrite Hmain.
      destruct (updateSummaryIssue opts own h) as [[[]|e|] h1];
        [apply Hcas|reflexivity|reflexivity]. }
    split; [exact E|]. rewrite E.
    destruct (updateSummaryIssue opts own h) as [[[]|e|] h1].
    + destruct Hr as (cs & -> & _ & _ & Hu). exists cs. auto.
    + destruct Hr as (pre & c & -> & _ & _ & Hu & _ & Hc').
      exists (pre ++ [c]). split; [reflexivity|].
      rewrite updatedIds_app, Hu. exact Hc'.
    + contradiction.
Qed.

End Orchestrator.

(** * A concrete tracker

    A library whose [%q] wraps a name in double quotes (exact on the plain
    names used here), and two endpoints: one that always succeeds and
    answers every search for summary issues with the issue [S], one that
    returns the issues [A] and [B] and refuses to update [B]. *)

Module Demo.

Definition lib : GoLib :=
  {| Time := nat;
     Format := fun _ _ => "2024-05-01 10:00:00 UTC";
     Quote := fun s => dquote +:+ s +:+ dquote;
     QueryEscape := fun s => s;
     Getenv := fun _ => "https://github.com";
     Quote_plain := fun s _ => eq_refl |}.

Definition summaryLabel : label := {| Name := "summary" |}.
Definition bug : label := {| Name := "bug" |}.
Definition bot : actor := {| Login := "bot" |}.

Definition node (i : string) (ls : labels) : @graphqlIssue lib :=
  {| g_ID := i; g_URL := "https://github.com/octo/r/issues/" +:+ i;
     g_Title := "Summary " +:+ i; g_Body := ""; g_Author := bot;
     g_Labels := ls; g_Comments := [] |}.

Definition S : @graphqlIssue lib := node "S" [summaryLabel; bug].
Definition A : @graphqlIssue lib := node "A" [summaryLabel; bug].
Definition B : @graphqlIssue lib := node "B" [summaryLabel; bug].

Definition hub : @GitHub lib :=
  {| endpoint := fun _ c =>
       match c with
       | SummaryIssues _ => Success [S]
       | SearchIssues _ => Success []
       | UpdateIssue _ _ => Success []
       end |}.

Definition failingHub : @GitHub lib :=
  {| endpoint := fun _ c =>
       match c with
       | SummaryIssues _ => Success [A; B]
       | SearchIssues _ => Success []
       | UpdateIssue i _ => if i =? "B" then Failure "graphql error: boom"
                            else Success []
       end |}.

(** The issue of the events: the summary issue [S]. *)
Definition eventIssue : restIssue :=
  {| r_ID := "S"; r_Title := "Summary S"; r_Body := ""; r_Author := bot;
     r_Labels := [summaryLabel; bug] |}.

Definition issuesEvent (action : string) (l : option label) : @event lib :=
  {| e_Name := "issues"; e_Changes_Body_From := ""; e_Action := action;
     e_Issue := Some eventIssue; e_Label := l; e_Comment := None |}.

Definition optsFor (e : @event lib) : @options lib :=
  {| user := "octo"; opt_event := e; summaryCommentRegex := literalRegexp "" |}.

Definition labeledBug : @options lib := optsFor (issuesEvent "labeled" (Some bug)).
Definition edited : @options lib := optsFor (issuesEvent "edited" None).

Definition own : issue :=
  {| id := "S"; title := "Summary S"; i_labels := [summaryLabel; bug] |}.

Definition onlySummary : issue :=
  {| id := "S"; title := "Summary S"; i_labels := [summaryLabel] |}.

Definition bugFilter : string := "label:" +:+ dquote +:+ "bug" +:+ dquote.

Definition emptyBody : string :=
  "_This is generated from the newest comment on [issues with matching labels]"
    +:+ "(https://github.com/search?q=type:issue user:octo " +:+ bugFilter
    +:+ ")._" +:+ nl +:+ nl +:+ "No matching issues." +:+ nl.

(** The calls of the direct update of [S]. *)
Definition directCalls : list call :=
  [SearchIssues ("user:octo " +:+ bugFilter); UpdateIssue "S" emptyBody].

Definition bugQuery : call :=
  SummaryIssues ("is:open user:octo label:summary " +:+ bugFilter).

(** C3, as stated, fails: a name that occurs twice in the label set is
    listed twice in the filter. *)
Lemma queryFilter_repeats_duplicates :
  @queryFilter lib [bug; summaryLabel; bug]
  = "label:" +:+ dquote +:+ "bug" +:+ dquote +:+ ","
      +:+ dquote +:+ "bug" +:+ dquote
  /\ count_occ string_dec (map Name (nonSummaryLabels [bug; summaryLabel; bug]))
                "bug" = 2
  /\ ~ (forall L x, In x (nonSummaryLabels L) ->
                    count_occ string_dec (map Name (nonSummaryLabels L)) (Name x)
                    = 1).
Proof.
  split; [reflexivity|]. split; [reflexivity|].
  intros Hall. specialize (Hall [bug; summaryLabel; bug] bug (or_introl eq_refl)).
  discriminate Hall.
Qed.

Example queryFilter_keeps_order :
  @queryFilter lib [ {| Name := "zeta" |}; summaryLabel; {| Name := "alpha" |} ]
  = "label:" +:+ dquote +:+ "zeta" +:+ dquote +:+ ","
      +:+ dquote +:+ "alpha" +:+ dquote.
Proof. reflexivity. Qed.

Example run_labeledBug :
  @testableMain lib hub (Ok labeledBug) []
  = (Ok tt, directCalls ++ bugQuery :: directCalls).
Proof. vm_compute. reflexivity. Qed.

(** C8, as stated, fails: the summary issue [S] is labeled "bug"; the
    direct update regenerates it, the cascade finds it again and
    regenerates it a second time in the same run. *)
Lemma summary_issue_updated_twice :
  updatedIds (snd (@testableMain lib hub (Ok labeledBug) [])) = ["S"; "S"]
  /\ ~ NoDup (updatedIds (snd (@testableMain lib hub (Ok labeledBug) []))).
Proof.
  assert (E : updatedIds (snd (@testableMain lib hub (Ok labeledBug) []))
              = ["S"; "S"]) by (vm_compute; reflexivity).
  split; [exact E|]. rewrite E. intros Hnd.
  inversion Hnd as [|x l Hin _]; subst. apply Hin. now left.
Qed.

Lemma direct_update_first_witness :
  @testableMain lib hub (Ok edited) [] = @updateSummaryIssue lib hub edited own []
  /\ exists cs, snd (@testableMain lib hub (Ok edited) []) = [] ++ cs
                /\ (updatedIds cs = [] \/ updatedIds cs = ["S"]).
Proof.
  exact (proj2 (@direct_update_first lib hub edited eventIssue []
                  eq_refl eq_refl eq_refl eq_refl)
               (or_introl eq_refl)).
Defined.


Definition failedHistory : list call :=
  [ bugQuery;
    SearchIssues ("user:octo " +:+ bugFilter); UpdateIssue "A" emptyBody;
    SearchIssues ("user:octo " +:+ bugFilter); UpdateIssue "B" emptyBody ].

Lemma failure_aborts_run_witness :
  exists pre c,
    failedHistory = [] ++ pre ++ [c]
    /\ @endpoint lib failingHub ([] ++ pre) c = Failure "graphql error: boom".
Proof.
  destruct (proj1 (@failure_aborts_run lib failingHub labeledBug [bug] []))
    as (cs & E & _ & Herr).
  destruct (Herr "graphql error: boom" eq_refl) as (pre & c & Ecs & _ & Hc & _).
  exists pre, c. split; [|exact Hc]. rewrite <- Ecs. exact E.
Defined.

Lemma no_labels_empty_body_witness :
  @generateIssueSummary lib hub edited onlySummary []
  = (Ok ("_This is generated from the newest comment on issues with matching labels._"
           +:+ nl +:+ nl +:+ "No matching issues." +:+ nl), []).
Proof.
  exact (proj1 (proj2 (@no_labels_empty_body lib hub edited onlySummary []
                         eq_refl))).
Defined.

End Demo.


(** * Further properties of the program *)

(** ** Label Set and [isany] *)

(** X1. [contains l s] holds exactly when some label of [l] is named [s]
    (names are compared byte for byte). *)
Theorem contains_spec (l : labels) (s : string) :
  contains l s = true <-> exists x, In x l /\ Name x = s.
Proof.
  induction l as [|n l IH]; simpl.
  - split; [discriminate|]. now intros (x & [] & _).
  - destruct (String.eqb_spec (Name n) s) as [E|E].
    + split; [|reflexivity]. intros _. exists n. auto.
    + rewrite IH. split.
      * intros (x & Hx & Hs). exists x. auto.
      * intros (x & [<-|Hx] & Hs); [contradiction|]. exists x. auto.
Qed.

(** X2. [isany s v] holds exactly when [s] is one of the strings of [v]. *)
Theorem isany_spec (s : string) (v : list string) :
  isany s v = true <-> In s v.
Proof.
  induction v as [|x v IH]; simpl.
  - split; [discriminate|contradiction].
  - destruct (String.eqb_spec s x) as [E|E].
    + split; auto.
    + rewrite IH. split; [auto|]. intros [Hx|Hv]; [congruence|assumption].
Qed.

Section LabelSetMore.
Context `{GoLib}.

Lemma filter_all_true (A : Type) (p : A -> bool) (l : list A) :
  (forall x, In x l -> p x = true) -> filter p l = l.
Proof.
  induction l as [|x l IH]; intros Hall; [reflexivity|]. simpl.
  rewrite (Hall x (or_introl eq_refl)). f_equal. apply IH.
  intros y Hy. apply Hall. now right.
Qed.

(** X3. Removing the summary label twice is removing it once, the filter of
    a label set is the filter of its non-summary labels, a label set without
    a label named "summary" is returned as it is, and the result is never
    longer than the label set. *)
Theorem nonSummaryLabels_again (l : labels) :
  nonSummaryLabels (nonSummaryLabels l) = nonSummaryLabels l
  /\ queryFilter (nonSummaryLabels l) = queryFilter l
  /\ (contains l "summary" = false -> nonSummaryLabels l = l)
  /\ List.length (nonSummaryLabels l) <= List.length l.
Proof.
  assert (E : nonSummaryLabels (nonSummaryLabels l) = nonSummaryLabels l).
  { rewrite !nonSummaryLabels_filter. apply filter_idem. }
  split; [exact E|]. split; [|split].
  - rewrite !queryFilter_unfold. unfold quotedNames. now rewrite E.
  - intros Hc. rewrite nonSummaryLabels_filter. apply filter_all_true.
    intros x Hx. unfold notSummary. apply negb_true_iff, String.eqb_neq.
    now apply (proj1 (contains_false_iff l "summary") Hc).
  - rewrite nonSummaryLabels_filter. apply filter_length_le.
Qed.

End LabelSetMore.

(** ** Heading Normalizer, beyond the claims *)

Module HeadingFacts.
Import Headings.

Lemma unlines_lines (s : string) : unlines (lines s) = s.
Proof.
  induction s as [|c s IH]; [reflexivity|].
  destruct (Ascii.eqb_spec c newline) as [->|Hc].
  - rewrite lines_newline. rewrite (lines_cons s) in *.
    change (unlines (EmptyString :: first_line s :: tl (lines s)))
      with (String newline (unlines (first_line s :: tl (lines s)))).
    now rewrite IH.
  - apply Ascii.eqb_neq in Hc. rewrite lines_other by assumption.
    rewrite unlines_cons_String, <- lines_cons. now rewrite IH.
Qed.

Lemma lines_no_hash (s : string) :
  no_hash s = true -> Forall (fun l => no_hash l = true) (lines s).
Proof.
  induction s as [|c s IH]; [repeat constructor|]. simpl no_hash. intros Hs.
  apply andb_prop in Hs as [Hc Hs]. specialize (IH Hs).
  destruct (Ascii.eqb c newline) eqn:Hn.
  - simpl. rewrite Hn. constructor; [reflexivity|exact IH].
  - rewrite lines_other by assumption. rewrite (lines_cons s) in IH.
    inversion IH; subst. constructor; [|assumption]. simpl. now rewrite Hc.
Qed.

Lemma rewriteLine_no_hash (l : string) : no_hash l = true -> rewriteLine l = l.
Proof.
  intros Hl. unfold rewriteLine, demote, h1, h2.
  now rewrite !(no_hash_no_heading _ l Hl).
Qed.

Lemma map_id_on (A : Type) (f : A -> A) (P : A -> Prop) (l : list A) :
  (forall x, P x -> f x = x) -> Forall P l -> map f l = l.
Proof.
  intros Hf Hl. induction Hl as [|x l Hx _ IH]; [reflexivity|].
  simpl. now rewrite (Hf x Hx), IH.
Qed.

(** X4. A text without [#] is returned unchanged. *)
Theorem replaceHeadings_no_hash (s : string) :
  no_hash s = true -> replaceHeadings s = s.
Proof.
  intros Hs. rewrite replaceHeadings_lines.
  rewrite (map_id_on _ rewriteLine (fun l => no_hash l = true));
    [apply unlines_lines|apply rewriteLine_no_hash|now apply lines_no_hash].
Qed.

Lemma replaceHeadings_no_hash_witness :
  replaceHeadings ("plain text" +:+ nl +:+ "second line")
  = "plain text" +:+ nl +:+ "second line".
Proof.
  exact (replaceHeadings_no_hash ("plain text" +:+ nl +:+ "second line") eq_refl).
Defined.

(** The pattern with [n] [#] matches a line made of word bytes, [n] [#] and
    a remainder without [#]; the group is the remainder. *)
Lemma match_heading_word_prefix (n : nat) (w r : string) :
  all_word w = true -> no_hash r = true -> no_newline r = true ->
  match_heading (S n) (w +:+ hashes (S n) +:+ r) = Some (r, "").
Proof.
  intros Hw Hr Hn. induction w as [|c w IH].
  - simpl append. cbn [match_heading hashes]. 
    change (is_word hash) with false. cbv iota.
    assert (Hh : forall k, match_hashes k (hashes k +:+ r) = Some (r, "")).
    { induction k as [|k IHk]; [now apply match_rest_line|].
      simpl. exact IHk. }
    exact (Hh (S n)).
  - simpl in Hw. apply andb_prop in Hw as [Hc Hw].
    change (String c w +:+ hashes (S n) +:+ r)
      with (String c (w +:+ hashes (S n) +:+ r)).
    cbn [match_heading]. now rewrite Hc, (IH Hw).
Qed.

Lemma word_prefix_unique (w1 w2 a b : string) :
  all_word w1 = true -> all_word w2 = true ->
  w1 +:+ String hash a = w2 +:+ String hash b -> w1 = w2 /\ a = b.
Proof.
  revert w2; induction w1 as [|c w1 IH]; intros [|d w2] H1 H2 E; simpl in *.
  - inversion E. auto.
  - inversion E; subst d. now rewrite andb_false_l in H2 by reflexivity.
  - inversion E; subst c. now rewrite andb_false_l in H1 by reflexivity.
  - inversion E; subst d. apply andb_prop in H1 as [_ H1].
    apply andb_prop in H2 as [_ H2].
    destruct (IH w2 H1 H2 H3) as [-> ->]. auto.
Qed.

(** One line matches at most one of the two patterns. *)
Lemma h1_excludes_h2 (l c1 r1 c2 r2 : string) :
  no_newline l = true ->
  match_heading h1 l = Some (c1, r1) -> match_heading h2 l = Some (c2, r2) ->
  False.
Proof.
  intros Hl M1 M2.
  destruct (line_match_shape _ _ _ _ Hl M1) as (w1 & E1 & W1 & N1 & _).
  destruct (line_match_shape _ _ _ _ Hl M2) as (w2 & E2 & W2 & _).
  rewrite E1 in E2. simpl hashes in E2. simpl append in E2.
  destruct (word_prefix_unique w1 w2 _ _ W1 W2 E2) as [_ Ec].
  rewrite Ec in N1. discriminate N1.
Qed.

Lemma rewriteLine_word_prefix (w r : string) :
  all_word w = true -> no_hash r = true -> no_newline r = true ->
  rewriteLine (w +:+ "#" +:+ r) = "###" +:+ r
  /\ rewriteLine (w +:+ "##" +:+ r) = "###" +:+ r.
Proof.
  intros Hw Hr Hn.
  pose proof (match_heading_word_prefix 0 w r Hw Hr Hn) as M1.
  pose proof (match_heading_word_prefix 1 w r Hw Hr Hn) as M2.
  change (hashes 1) with "#" in M1. change (hashes 2) with "##" in M2.
  assert (Hl : no_newline (w +:+ "#" +:+ r) = true).
  { rewrite no_newline_append. simpl. now rewrite Hn, (all_word_no_newline w Hw). }
  split; unfold rewriteLine.
  - assert (E2 : demote h2 (w +:+ "#" +:+ r) = w +:+ "#" +:+ r).
    { unfold demote.
      destruct (match_heading h2 (w +:+ "#" +:+ r)) as [[c2 r2]|] eqn:E;
        [|reflexivity].
      exfalso. exact (h1_excludes_h2 _ _ _ _ _ Hl M1 E). }
    rewrite E2. unfold demote, h1. now rewrite M1.
  - assert (E2 : demote h2 (w +:+ "##" +:+ r) = "###" +:+ r).
    { unfold demote, h2. now rewrite M2. }
    rewrite E2. apply demoted_is_stable. now left.
Qed.

(** X5. What the patterns do to a line with a word prefix: a line made of
    word bytes (letters, digits, underscore), then one or two [#], then a
    remainder without [#], becomes three [#] and the remainder; the word
    prefix is dropped. *)
Theorem replaceHeadings_drops_word_prefix (s : string) (i : nat) (l w r : string) :
  nth_error (lines s) i = Some l ->
  all_word w = true -> no_hash r = true ->
  l = w +:+ "#" +:+ r \/ l = w +:+ "##" +:+ r ->
  nth_error (lines (replaceHeadings s)) i = Some ("###" +:+ r).
Proof.
  intros Hi Hw Hr Hl.
  assert (Hn : no_newline l = true).
  { pose proof (lines_no_newline s) as Hall. rewrite Forall_forall in Hall.
    apply Hall. eapply nth_error_In; eauto. }
  assert (Hnr : no_newline r = true).
  { destruct Hl as [-> | ->]; rewrite no_newline_append in Hn;
      apply andb_prop in Hn as [_ Hn]; simpl in Hn; exact Hn. }
  rewrite lines_replaceHeadings.
  destruct (rewriteLine_word_prefix w r Hw Hr Hnr) as [E1 E2].
  destruct Hl as [-> | ->]; [rewrite <- E1|rewrite <- E2];
    now apply map_nth_error.
Qed.

Lemma replaceHeadings_drops_word_prefix_witness :
  nth_error (lines (replaceHeadings ("see item#12" +:+ nl +:+ "item#12"))) 1
  = Some "###12".
Proof.
  exact (replaceHeadings_drops_word_prefix
           ("see item#12" +:+ nl +:+ "item#12") 1 "item#12" "item" "12"
           eq_refl eq_refl eq_refl (or_introl eq_refl)).
Defined.

Lemma demote_commute (l : string) :
  no_newline l = true ->
  demote h1 (demote h2 l) = demote h2 (demote h1 l).
Proof.
  intros Hl.
  destruct (match_heading h2 l) as [[c2 r2]|] eqn:M2.
  - assert (E2 : demote h2 l = "###" +:+ c2) by (unfold demote; now rewrite M2).
    assert (E1 : demote h1 l = l).
    { unfold demote. destruct (match_heading h1 l) as [[c1 r1]|] eqn:M1;
        [|reflexivity].
      exfalso. exact (h1_excludes_h2 _ _ _ _ _ Hl M1 M2). }
    rewrite E1, E2. apply demoted_is_stable. now left.
  - assert (E2 : demote h2 l = l) by (unfold demote; now rewrite M2).
    rewrite E2. destruct (match_heading h1 l) as [[c1 r1]|] eqn:M1.
    + assert (E1 : demote h1 l = "###" +:+ c1) by (unfold demote; now rewrite M1).
      rewrite E1. symmetry. apply demoted_is_stable. now right.
    + assert (E1 : demote h1 l = l) by (unfold demote; now rewrite M1).
      now rewrite E1, E2.
Qed.

Lemma byLine_byLine (n m : nat) (s : string) :
  byLine (S n) (byLine (S m) s)
  = unlines (map (fun l => demote (S n) (demote (S m) l)) (lines s)).
Proof.
  unfold byLine at 1. unfold byLine. rewrite lines_unlines.
  - now rewrite map_map.
  - apply map_not_nil, lines_not_nil.
  - apply Forall_map_no_newline; [apply demote_no_newline|apply lines_no_newline].
Qed.

(** X6. The two passes commute: applying the level-1 pattern before the
    level-2 pattern gives the same text as the order [replaceHeadings]
    uses, since no line matches both patterns. *)
Theorem passes_commute (s : string) :
  ReplaceAllString h1 (ReplaceAllString h2 s)
  = ReplaceAllString h2 (ReplaceAllString h1 s).
Proof.
  unfold h1, h2. rewrite !ReplaceAllString_lines, !byLine_byLine. f_equal.
  apply map_ext_in. intros l Hl. apply demote_commute.
  pose proof (lines_no_newline s) as Hall. rewrite Forall_forall in Hall. auto.
Qed.

Lemma headingLike_matches (l : string) :
  no_newline l = true -> headingLike l ->
  (exists m, match_heading h1 l = Some m) \/ (exists m, match_heading h2 l = Some m).
Proof.
  intros Hl (w & r & Hw & Hr & E).
  assert (Hn : no_newline r = true).
  { destruct E as [-> | ->]; rewrite no_newline_append in Hl;
      apply andb_prop in Hl as [_ Hl]; simpl in Hl; exact Hl. }
  destruct E as [-> | ->]; [left|right]; exists (r, EmptyString).
  - exact (match_heading_word_prefix 0 w r Hw Hr Hn).
  - exact (match_heading_word_prefix 1 w r Hw Hr Hn).
Qed.

Lemma three_hashes_not_headingLike (cap : string) : ~ headingLike ("###" +:+ cap).
Proof.
  intros (w & r & Hw & Hr & E).
  assert (Hw0 : w = EmptyString).
  { destruct w as [|c w]; [reflexivity|].
    destruct E as [E|E]; inversion E; subst c; discriminate Hw. }
  subst w. destruct E as [E|E]; inversion E; subst r; discriminate Hr.
Qed.

(** X7. No line of the result can be rewritten by either pattern: the
    result has no line made of word bytes, one or two [#], and a remainder
    without [#]. *)
Theorem result_has_no_heading (s : string) :
  Forall (fun l => ~ headingLike l) (lines (replaceHeadings s)).
Proof.
  rewrite lines_replaceHeadings. apply Forall_forall. intros l' Hin.
  apply in_map_iff in Hin as (l & <- & Hl).
  assert (Hn : no_newline l = true).
  { pose proof (lines_no_newline s) as Hall. rewrite Forall_forall in Hall. auto. }
  destruct (rewriteLine_cases l) as [[cap E]|(E & M1 & M2)]; rewrite E.
  - apply three_hashes_not_headingLike.
  - intros Hh. destruct (headingLike_matches l Hn Hh) as [[m Hm]|[m Hm]];
      congruence.
Qed.

End HeadingFacts.

(** ** One section of the body *)

Section SectionFacts.
Context `{GoLib}.

Lemma lastMatch_loop_find (c : comments) (r : Regexp) (k : nat) :
  k <= List.length c ->
  lastMatch_loop c r k = find (matches r) (rev (firstn k c)).
Proof.
  induction k as [|j IH]; intros Hk; [reflexivity|].
  cbn [lastMatch_loop]. destruct (nth_error c j) as [cj|] eqn:Ej.
  - rewrite (firstn_succ_snoc _ _ _ _ Ej), rev_app_distr. simpl.
    unfold matches at 1. destruct (MatchString r (c_Body cj)); [reflexivity|].
    apply IH. lia.
  - apply nth_error_None in Ej. lia.
Qed.

Lemma lastMatch_find (c : comments) (r : Regexp) :
  lastMatch c r = find (matches r) (rev c).
Proof.
  unfold lastMatch. rewrite lastMatch_loop_find by lia. now rewrite firstn_all.
Qed.

Lemma find_none_matches (r : Regexp) (cs : comments) :
  noneMatches r cs = true -> find (matches r) cs = None.
Proof.
  induction cs as [|y cs IH]; [reflexivity|]. unfold noneMatches. simpl.
  intros Hn. apply andb_prop in Hn as [Hy Hn]. apply negb_true_iff in Hy.
  rewrite Hy. now apply IH.
Qed.

Lemma find_skips (r : Regexp) (a b : comments) :
  noneMatches r a = true -> find (matches r) (a ++ b) = find (matches r) b.
Proof.
  induction a as [|y a IH]; [reflexivity|]. unfold noneMatches. simpl.
  intros Hn. apply andb_prop in Hn as [Hy Hn]. apply negb_true_iff in Hy.
  rewrite Hy. now apply IH.
Qed.

Lemma noneMatches_rev (r : Regexp) (cs : comments) :
  noneMatches r (rev cs) = noneMatches r cs.
Proof.
  induction cs as [|y cs IH]; [reflexivity|]. simpl rev.
  rewrite noneMatches_app, IH. unfold noneMatches. simpl.
  rewrite andb_true_r. apply andb_comm.
Qed.

Definition sectionHeading (i : graphqlIssue) : string :=
  "## [" +:+ g_Title i +:+ "](" +:+ g_URL i +:+ ")" +:+ nl.

(** X8. The section of a source issue none of whose comments matches the
    pattern, in particular of an issue without comments, is its heading
    line followed by the line "_No update_". *)
Theorem section_without_match (opts : options) (i : graphqlIssue) :
  noneMatches (summaryCommentRegex opts) (g_Comments i) = true ->
  issueSection opts i = sectionHeading i +:+ "_No update_" +:+ nl.
Proof.
  intros Hn. unfold issueSection, sectionHeading.
  rewrite lastMatch_find, find_none_matches.
  - now rewrite !Headings.append_assoc.
  - rewrite noneMatches_rev. exact Hn.
Qed.

(** X9. When the comments are [older ++ x :: newer], [x] matches the pattern
    and no comment of [newer] does, the section is the heading line, the
    body of [x] with its headings normalized, and the line that names the
    time of the last update of [x] and its author. *)
Theorem section_with_match (opts : options) (i : graphqlIssue)
        (older newer : comments) (x : comment) :
  g_Comments i = older ++ x :: newer ->
  matches (summaryCommentRegex opts) x = true ->
  noneMatches (summaryCommentRegex opts) newer = true ->
  issueSection opts i
  = sectionHeading i +:+ replaceHeadings (c_Body x) +:+ nl +:+ nl +:+ nl
      +:+ "_Updated " +:+ Format (c_UpdatedAt x) "2006-01-02 15:04:05 MST"
      +:+ " by @" +:+ Login (c_Author x) +:+ "_" +:+ nl +:+ nl.
Proof.
  intros Hc Hx Hn. unfold issueSection, sectionHeading.
  rewrite lastMatch_find, Hc, rev_app_distr. simpl rev. rewrite <- app_assoc.
  rewrite find_skips by (rewrite noneMatches_rev; exact Hn).
  cbn [app find]. rewrite Hx. now rewrite !Headings.append_assoc.
Qed.

End SectionFacts.

(** ** Regenerations and events, beyond the claims *)

Section OrchestratorFacts.
Context `{GoLib} `{!GitHub}.

Lemma sourceQuery_cases (opts : options) (i : issue) :
  (queryFilter (i_labels i) = "" /\ sourceQuery opts i = [])
  \/ sourceQuery opts i
     = [SearchIssues ("user:" +:+ user opts +:+ " " +:+ queryFilter (i_labels i))].
Proof.
  unfold sourceQuery. destruct (String.eqb_spec (queryFilter (i_labels i)) "");
    auto.
Qed.

(** X10. One regeneration, told by the answers of the endpoint (answers
    whose nodes and comments are objects).  Without a non-summary label it
    makes one call, the update with the body of the empty list.  Otherwise
    it first makes the search for the source issues built from the labels
    of the issue itself; when the search fails, its error is the result and
    no update is attempted; when it succeeds, the second and last call is
    the update whose body is rendered from the issues the search returned.
    The result is success when the update succeeds and the error of the
    update when it fails. *)
Theorem update_body_from_own_search (opts : options) (i : issue) (h : list call) :
  match sourceQuery opts i with
  | [] =>
      nonSummaryLabels (i_labels i) = []
      /\ updateSummaryIssue opts i h
         = (match endpoint h (UpdateIssue (id i) (summaryBody opts i [])) with
            | Failure e => Err e
            | Success _ => Ok tt
            end,
            h ++ [UpdateIssue (id i) (summaryBody opts i [])])
  | q :: _ =>
      q = SearchIssues ("user:" +:+ user opts +:+ " "
                                +:+ queryFilter (i_labels i))
      /\ match endpoint h q with
         | Failure e => updateSummaryIssue opts i h = (Err e, h ++ [q])
         | Success found =>
             updateSummaryIssue opts i h
             = (match endpoint (h ++ [q])
                               (UpdateIssue (id i) (summaryBody opts i found)) with
                | Failure e => Err e
                | Success _ => Ok tt
                end,
                h ++ [q; UpdateIssue (id i) (summaryBody opts i found)])
         end
  end.
Proof.
  rewrite updateSummaryIssue_unfold.
  destruct (sourceQuery_cases opts i) as [[Hq ->]| ->].
  - split; [now apply queryFilter_empty_iff|].
    cbn zeta. destruct (endpoint h _); reflexivity.
  - split; [reflexivity|].
    destruct (endpoint h _) as [e|found]; [reflexivity|].
    cbn zeta. rewrite <- app_assoc.
    destruct (endpoint (h ++ _) _); reflexivity.
Qed.




(** X13. An [issue_comment] event never updates the commented issue
    directly: the run is [updateSummaryIssues] on the non-summary labels of
    the issue, or nothing at all when it has none.  An [issues] event with
    action opened does the same after its direct update. *)
Theorem issue_labels_cascade (opts : options) (iss : restIssue) (h : list call) :
  e_Issue (opt_event opts) = Some iss ->
  (e_Name (opt_event opts) = "issue_comment" ->
   testableMain (Ok opts) h =
   match nonSummaryLabels (r_Labels iss) with
   | [] => (Ok tt, h)
   | ls => updateSummaryIssues opts ls h
   end)
  /\ (e_Name (opt_event opts) = "issues" ->
      e_Action (opt_event opts) = "opened" ->
      forall h1, directUpdate opts iss h = (Ok tt, h1) ->
                 testableMain (Ok opts) h =
                 match nonSummaryLabels (r_Labels iss) with
                 | [] => (Ok tt, h1)
                 | ls => updateSummaryIssues opts ls h1
                 end).
Proof.
  intros Hi. split.
  - intros Hn. unfold testableMain, bind, lift, deref. rewrite Hn, Hi.
    cbn [String.eqb Ascii.eqb Bool.eqb].
    destruct (nonSummaryLabels (r_Labels iss)); reflexivity.
  - intros Hn Ha h1 Hd.
    rewrite (testableMain_issues opts iss h Hn Hi), Hd.
    unfold cascade. rewrite Ha. cbn [String.eqb Ascii.eqb Bool.eqb orb].
    destruct (nonSummaryLabels (r_Labels iss)); reflexivity.
Qed.

(** X14. Events that change nothing: an event that is neither [issues] nor
    [issue_comment], and an [issues] event whose action is none of labeled,
    unlabeled, opened, unless it is an edit of an issue that carries the
    summary label, end successfully without a call. *)
Theorem quiet_events (opts : options) (h : list call) :
  (e_Name (opt_event opts) <> "issues"
   /\ e_Name (opt_event opts) <> "issue_comment")
  \/ (e_Name (opt_event opts) = "issues"
      /\ e_Action (opt_event opts) <> "labeled"
      /\ e_Action (opt_event opts) <> "unlabeled"
      /\ e_Action (opt_event opts) <> "opened"
      /\ exists iss, e_Issue (opt_event opts) = Some iss
                     /\ (e_Action (opt_event opts) <> "edited"
                         \/ contains (r_Labels iss) "summary" = false)) ->
  testableMain (Ok opts) h = (Ok tt, h).
Proof.
  intros [[N1 N2]|(Hn & A1 & A2 & A3 & iss & Hi & Hq)].
  - apply String.eqb_neq in N1, N2.
    unfold testableMain, bind, lift. now rewrite N1, N2.
  - rewrite (testableMain_issues opts iss h Hn Hi).
    apply String.eqb_neq in A1, A2, A3.
    assert (Hd : directUpdate opts iss h = (Ok tt, h)).
    { unfold directUpdate. cbn [isany]. rewrite A1, A2, A3.
      destruct Hq as [A4|Hc].
      - apply String.eqb_neq in A4. rewrite A4. now rewrite andb_false_r.
      - now rewrite Hc. }
    rewrite Hd. unfold cascade. now rewrite A1, A2, A3.
Qed.

(** X15. A missing pointer in the event makes the run panic: an [issues]
    or [issue_comment] event without issue panics before any call; a
    labeled or unlabeled event without label panics right after the direct
    update. *)
Theorem missing_pointer_panics (opts : options) (h : list call) :
  ((e_Name (opt_event opts) = "issues"
    \/ e_Name (opt_event opts) = "issue_comment") ->
   e_Issue (opt_event opts) = None ->
   testableMain (Ok opts) h = (Panic, h))
  /\ (forall iss h1,
         e_Name (opt_event opts) = "issues" ->
         e_Issue (opt_event opts) = Some iss ->
         e_Action (opt_event opts) = "labeled"
         \/ e_Action (opt_event opts) = "unlabeled" ->
         e_Label (opt_event opts) = None ->
         directUpdate opts iss h = (Ok tt, h1) ->
         testableMain (Ok opts) h = (Panic, h1)).
Proof.
  split.
  - intros [Hn|Hn] Hi; unfold testableMain, bind, lift, deref;
      rewrite Hn, Hi; reflexivity.
  - intros iss h1 Hn Hi Ha Hl Hd.
    rewrite (testableMain_issues opts iss h Hn Hi), Hd.
    unfold cascade, bind, deref. rewrite Hl.
    destruct Ha as [-> | ->]; reflexivity.
Qed.

(** *** Which issues a run updates *)

Lemma updatedIds_target (cs : list call) :
  updatedIds (map target cs) = updatedIds cs.
Proof.
  induction cs as [|c cs IH]; [reflexivity|].
  destruct c; simpl; now rewrite IH.
Qed.

Lemma updatedIds_regenCalls (opts : options) (i : issue) :
  updatedIds (regenCalls opts i) = [id i].
Proof.
  unfold regenCalls. rewrite updatedIds_app.
  destruct (sourceQuery_cases opts i) as [[_ ->]| ->]; reflexivity.
Qed.

Lemma updatedIds_cascadeCalls (opts : options) (nodes : list graphqlIssue) :
  updatedIds (cascadeCalls opts nodes) = map (@g_ID _) nodes.
Proof.
  induction nodes as [|n nodes IH]; [reflexivity|].
  cbn [cascadeCalls flat_map]. fold (cascadeCalls opts nodes).
  rewrite updatedIds_app, updatedIds_regenCalls, IH. reflexivity.
Qed.

Lemma prefix_updatedIds (a b : list call) (i : string) :
  isPrefix (map target a) b -> In i (updatedIds a) -> In i (updatedIds b).
Proof.
  intros [c ->] Hi. rewrite updatedIds_app, updatedIds_target.
  apply in_or_app. now left.
Qed.

(** The updates of [cs], made from the history [h1], are updates of issues
    that the search at the head of [cs] returned. *)
Definition fromSearch (h1 : list call) (cs : list call) : Prop :=
  forall i, In i (updatedIds cs) ->
            exists q post nodes,
              cs = SummaryIssues q :: post
              /\ endpoint h1 (SummaryIssues q) = Success nodes
              /\ In i (map (@g_ID _) nodes).

Lemma fromSearch_nil (h1 : list call) : fromSearch h1 [].
Proof. intros i []. Qed.

Lemma updateSummaryIssues_fromSearch (opts : options) (ls : labels)
      (h1 : list call) :
  exists cs, snd (updateSummaryIssues opts ls h1) = h1 ++ cs /\ fromSearch h1 cs.
Proof.
  rewrite updateSummaryIssues_unfold.
  assert (Eq : exists s, summaryQuery opts ls = SummaryIssues s)
    by (eexists; reflexivity).
  destruct Eq as [s Eq]. rewrite Eq.
  destruct (endpoint h1 (SummaryIssues s)) as [e|nodes] eqn:Ee.
  - exists [SummaryIssues s]. split; [reflexivity|]. intros i [].
  - pose proof (updateEach_run opts nodes (h1 ++ [SummaryIssues s])) as Hr.
    assert (Hp : exists calls,
               snd (updateEach opts nodes (h1 ++ [SummaryIssues s]))
               = (h1 ++ [SummaryIssues s]) ++ calls
               /\ isPrefix (map target calls) (cascadeCalls opts nodes)).
    { destruct (updateEach opts nodes (h1 ++ [SummaryIssues s]))
        as [[[]|e|] h'].
      - destruct Hr as (cs & -> & _ & Ht & _). exists cs.
        split; [reflexivity|]. exists []. now rewrite app_nil_r.
      - destruct Hr as (k & pre & c & _ & -> & _ & _ & _ & Hp).
        exists (pre ++ [c]). auto.
      - contradiction. }
    destruct Hp as (calls & Ec & Hp).
    exists (SummaryIssues s :: calls). rewrite Ec, <- app_assoc.
    split; [reflexivity|]. intros i Hi. cbn [updatedIds] in Hi.
    exists s, calls, nodes. split; [reflexivity|]. split; [exact Ee|].
    rewrite <- updatedIds_cascadeCalls with (opts := opts).
    now apply (prefix_updatedIds calls).
Qed.

Lemma cascade_fromSearch (opts : options) (iss : restIssue) (h1 : list call) :
  exists cs, snd (cascade opts iss h1) = h1 ++ cs /\ fromSearch h1 cs.
Proof.
  assert (Hnil : forall r : result unit,
             exists cs, snd (r, h1) = h1 ++ cs /\ fromSearch h1 cs).
  { intros r. exists []. rewrite app_nil_r. split; [reflexivity|].
    apply fromSearch_nil. }
  unfold cascade, bind, deref, ret. destruct (_ || _).
  - destruct (e_Label (opt_event opts)) as [l|]; [|apply Hnil].
    destruct (Name l =? "summary");
      [apply Hnil|apply updateSummaryIssues_fromSearch].
  - destruct (e_Action (opt_event opts) =? "opened"); [|apply Hnil].
    destruct (_ =? 0)%nat; [apply Hnil|apply updateSummaryIssues_fromSearch].
Qed.

Lemma directUpdate_ids (opts : options) (iss : restIssue) (h : list call) :
  exists cs,
    snd (directUpdate opts iss h) = h ++ cs
    /\ forall i, In i (updatedIds cs) ->
                 i = r_ID iss /\ contains (r_Labels iss) "summary" = true.
Proof.
  unfold directUpdate.
  destruct (contains (r_Labels iss) "summary") eqn:Hc; cbn [andb].
  - destruct (isany _ _).
    + set (own := {| id := r_ID iss; title := r_Title iss;
                     i_labels := r_Labels iss |}).
      pose proof (updateSummaryIssue_run opts own h) as Hr.
      destruct (updateSummaryIssue opts own h) as [[[]|e|] h'].
      * destruct Hr as (cs & -> & _ & _ & Hu). exists cs.
        split; [reflexivity|]. rewrite Hu. intros i [<-|[]]. auto.
      * destruct Hr as (pre & c & -> & _ & _ & Hu & _ & Hc').
        exists (pre ++ [c]). split; [reflexivity|].
        rewrite updatedIds_app, Hu.
        destruct Hc' as [-> | ->]; [intros i []|intros i [<-|[]]; auto].
      * contradiction.
    + exists []. rewrite app_nil_r. split; [reflexivity|]. intros i [].
  - exists []. rewrite app_nil_r. split; [reflexivity|]. intros i [].
Qed.

(** X16. A run only ever updates the issue of the event, and then that
    issue carries the summary label, or an issue that the search for
    summary issues of the same run returned: every update of a run is one
    of these. *)
Theorem only_summary_issues_updated (opts : options) (h : list call) :
  exists cs,
    snd (testableMain (Ok opts) h) = h ++ cs
    /\ forall i, In i (updatedIds cs) ->
         (exists iss, e_Issue (opt_event opts) = Some iss /\ r_ID iss = i
                      /\ contains (r_Labels iss) "summary" = true)
         \/ (exists pre q post nodes,
                cs = pre ++ SummaryIssues q :: post
                /\ endpoint (h ++ pre) (SummaryIssues q) = Success nodes
                /\ In i (map (@g_ID _) nodes)).
Proof.
  assert (Hquiet : forall r : result unit,
             exists cs, snd (r, h) = h ++ cs
                        /\ forall i, In i (updatedIds cs) -> False).
  { intros r. exists []. rewrite app_nil_r. split; [reflexivity|]. intros i []. }
  assert (Hsearch : forall h1 pre cs,
             h1 = h ++ pre -> fromSearch h1 cs ->
             forall i, In i (updatedIds cs) ->
               exists pre' q post nodes,
                 pre ++ cs = pre' ++ SummaryIssues q :: post
                 /\ endpoint (h ++ pre') (SummaryIssues q) = Success nodes
                 /\ In i (map (@g_ID _) nodes)).
  { intros h1 pre cs -> Hf i Hi.
    destruct (Hf i Hi) as (q & post & nodes & -> & Hq & Hn).
    exists pre, q, post, nodes. auto. }
  destruct (e_Name (opt_event opts) =? "issues") eqn:Hn.
  - apply String.eqb_eq in Hn.
    destruct (e_Issue (opt_event opts)) as [iss|] eqn:Hi.
    + rewrite (testableMain_issues opts iss h Hn Hi).
      destruct (directUpdate_ids opts iss h) as (d & Ed & Hd).
      destruct (directUpdate opts iss h) as [[[]|e|] h1]; simpl in Ed; subst h1.
      * destruct (cascade_fromSearch opts iss (h ++ d)) as (c & Ec & Hc).
        exists (d ++ c). rewrite Ec, app_assoc. split; [reflexivity|].
        intros i Hin. rewrite updatedIds_app in Hin.
        apply in_app_or in Hin as [Hin|Hin].
        -- left. exists iss. destruct (Hd i Hin) as [-> Hs]. auto.
        -- right. exact (Hsearch (h ++ d) d c eq_refl Hc i Hin).
      * exists d. split; [reflexivity|]. intros i Hin. left. exists iss.
        destruct (Hd i Hin) as [-> Hs]. auto.
      * exists d. split; [reflexivity|]. intros i Hin. left. exists iss.
        destruct (Hd i Hin) as [-> Hs]. auto.
    + assert (Hp : testableMain (Ok opts) h = (Panic, h)).
      { unfold testableMain, bind, lift, deref. now rewrite Hn, Hi. }
      rewrite Hp.
      destruct (Hquiet Panic) as (cs & E & Hno). exists cs.
      split; [exact E|]. intros i Hin. destruct (Hno i Hin).
  - unfold testableMain, bind, lift, deref. rewrite Hn.
    destruct (e_Name (opt_event opts) =? "issue_comment").
    + destruct (e_Issue (opt_event opts)) as [iss|].
      * destruct (_ =? 0)%nat.
        -- destruct (Hquiet (Ok tt)) as (cs & E & Hno). exists cs.
           split; [exact E|]. intros i Hin. destruct (Hno i Hin).
        -- destruct (updateSummaryIssues_fromSearch opts
                       (nonSummaryLabels (r_Labels iss)) h) as (c & Ec & Hc).
           exists c. split; [exact Ec|]. intros i Hin. right.
           rewrite <- (app_nil_r h) in Hc.
           destruct (Hsearch (h ++ []) [] c eq_refl Hc i Hin)
             as (pre' & q & post & nodes & E & Hq & Hnodes).
           exists pre', q, post, nodes. auto.
      * destruct (Hquiet Panic) as (cs & E & Hno). exists cs.
        split; [exact E|]. intros i Hin. destruct (Hno i Hin).
    + destruct (Hquiet (Ok tt)) as (cs & E & Hno). exists cs.
      split; [exact E|]. intros i Hin. destruct (Hno i Hin).
Qed.

End OrchestratorFacts.


(** ** Options of a run (lines 75-123)

    [githubActionOptions] reads the environment, the event file and the
    command line.  Reading a file, decoding JSON into the event, parsing
    the flags and compiling the pattern belong to Go's standard library:
    they are the fields of the class [Host], each returning its value or an
    error. *)

From Stdlib Require Import ZArith.

(** [strings.IndexRune(s, c)] for a rune of one byte: the index of the first
    byte [c] of [s], or [-1]. *)
Fixpoint IndexRune (s : string) (c : ascii) : Z :=
  match s with
  | EmptyString => (-1)%Z
  | String d s' =>
      if Ascii.eqb d c then 0%Z
      else let i := IndexRune s' c in
           if (i <? 0)%Z then (-1)%Z else (i + 1)%Z
  end.

Section Options.
Context `{GoLib}.

Class Host : Type := {
  (** [ioutil.ReadFile(path)] *)
  ReadFile : string -> string + error;
  (** [json.Unmarshal(data, &e)]: the event [e] after decoding *)
  Unmarshal : string -> event -> event + error;
  (** [flags.Parse(args)]: the value of the flag [summaryCommentRegex] *)
  ParseFlags : list string -> string + error;
  (** [regexp.Compile(re)] *)
  Compile : string -> Regexp + error
}.

Context `{!Host}.

Definition githubActionOptions (args : list string) : result options :=
  let repo := Getenv "GITHUB_REPOSITORY" in
  let i := IndexRune repo "/" in
  if (i <? 1)%Z then
    Err ("invalid value for GITHUB_REPOSITORY env var: " +:+ Quote repo)
  else
    let user := substring 0 (Z.to_nat i) repo in
    let path := Getenv "GITHUB_EVENT_PATH" in
    if path =? "" then Err "env var GITHUB_EVENT_PATH not set"
    else
      match ReadFile path with
      | inr err =>
          Err ("unable to read GitHub event json " +:+ path +:+ ": " +:+ err)
      | inl data =>
          let name := Getenv "GITHUB_EVENT_NAME" in
          if name =? "" then Err "env var GITHUB_EVENT_NAME not set"
          else
            let e := {| e_Name := name; e_Changes_Body_From := "";
                        e_Action := ""; e_Issue := None; e_Label := None;
                        e_Comment := None |} in
            match Unmarshal data e with
            | inr err =>
                Err ("unable to decode GitHub event: " +:+ err +:+ nl +:+ data)
            | inl e =>
                match ParseFlags args with
                | inr err => Err err
                | inl re =>
                    match Compile re with
                    | inr err => Err err
                    | inl r =>
                        Ok {| user := user; opt_event := e;
                              summaryCommentRegex := r |}
                    end
                end
            end
      end.

Fixpoint no_slash (s : string) : bool :=
  match s with
  | EmptyString => true
  | String c s' => negb (Ascii.eqb c "/") && no_slash s'
  end.

Lemma IndexRune_range (s : string) (c : ascii) : (-1 <= IndexRune s c)%Z.
Proof.
  induction s as [|d s IH]; simpl; [lia|].
  destruct (Ascii.eqb d c); [lia|].
  destruct (IndexRune s c <? 0)%Z eqn:E; [lia|].
  apply Z.ltb_ge in E. lia.
Qed.

Lemma IndexRune_absent (s : string) :
  no_slash s = true -> IndexRune s "/" = (-1)%Z.
Proof.
  induction s as [|d s IH]; [reflexivity|]. simpl. intros Hs.
  apply andb_prop in Hs as [Hd Hs]. apply negb_true_iff in Hd.
  rewrite Hd, (IH Hs). reflexivity.
Qed.

(** A non-negative index splits the text at its first slash. *)
Lemma IndexRune_split (s : string) :
  (0 <= IndexRune s "/")%Z ->
  exists rest,
    s = substring 0 (Z.to_nat (IndexRune s "/")) s +:+ "/" +:+ rest
    /\ no_slash (substring 0 (Z.to_nat (IndexRune s "/")) s) = true
    /\ String.length (substring 0 (Z.to_nat (IndexRune s "/")) s)
       = Z.to_nat (IndexRune s "/").
Proof.
  induction s as [|d s IH]; simpl; [lia|].
  destruct (Ascii.eqb_spec d "/") as [->|Hd].
  - intros _. exists s. simpl. auto.
  - pose proof (IndexRune_range s "/") as Hr.
    destruct (IndexRune s "/" <? 0)%Z eqn:E; [lia|].
    apply Z.ltb_ge in E. intros _. destruct (IH E) as (rest & Es & Hn & Hl).
    replace (Z.to_nat (IndexRune s "/" + 1)) with (S (Z.to_nat (IndexRune s "/")))
      by lia.
    apply Ascii.eqb_neq in Hd.
    exists rest. cbn [substring]. split; [|split].
    + simpl append. f_equal. exact Es.
    + cbn [no_slash]. now rewrite Hd, Hn.
    + cbn [String.length]. now rewrite Hl.
Qed.

(** X17. When [githubActionOptions] succeeds, the user is the text of
    GITHUB_REPOSITORY before its first slash: it is not empty and has no
    slash; the event path and the event name were set. *)
Theorem options_user_is_owner (args : list string) (opts : options) :
  githubActionOptions args = Ok opts ->
  (exists rest, Getenv "GITHUB_REPOSITORY" = user opts +:+ "/" +:+ rest)
  /\ user opts <> "" /\ no_slash (user opts) = true
  /\ Getenv "GITHUB_EVENT_PATH" <> ""
  /\ Getenv "GITHUB_EVENT_NAME" <> "".
Proof.
  unfold githubActionOptions. cbv zeta.
  destruct (IndexRune (Getenv "GITHUB_REPOSITORY") "/" <? 1)%Z eqn:Ei;
    [discriminate|].
  apply Z.ltb_ge in Ei.
  destruct (String.eqb_spec (Getenv "GITHUB_EVENT_PATH") "") as [|Hp];
    [discriminate|].
  destruct (ReadFile _) as [data|err]; [|discriminate].
  destruct (String.eqb_spec (Getenv "GITHUB_EVENT_NAME") "") as [|Hn];
    [discriminate|].
  destruct (Unmarshal _ _) as [e|err]; [|discriminate].
  destruct (ParseFlags args) as [re|err]; [|discriminate].
  destruct (Compile re) as [r|err]; [|discriminate].
  intros Hok. inversion Hok; subst opts. cbn [user].
  destruct (IndexRune_split (Getenv "GITHUB_REPOSITORY")) as (rest & Es & Hs & Hl);
    [lia|].
  repeat split; auto.
  - now exists rest.
  - intros E0. rewrite E0 in Hl. simpl in Hl. lia.
Qed.

Context `{!GitHub}.

(** X18. When GITHUB_REPOSITORY has no slash, or starts with one, the
    options are refused with the message that quotes its value, whatever
    the event file and the arguments are; and a run whose options are
    refused returns that error without any call. *)
Theorem bad_repository_stops_run (args : list string) (h : list call) :
  (no_slash (Getenv "GITHUB_REPOSITORY") = true
   \/ exists r, Getenv "GITHUB_REPOSITORY" = String "/" r) ->
  githubActionOptions args
  = Err ("invalid value for GITHUB_REPOSITORY env var: "
           +:+ Quote (Getenv "GITHUB_REPOSITORY"))
  /\ testableMain (githubActionOptions args) h
     = (Err ("invalid value for GITHUB_REPOSITORY env var: "
               +:+ Quote (Getenv "GITHUB_REPOSITORY")), h).
Proof.
  intros Hrepo.
  assert (E : githubActionOptions args
              = Err ("invalid value for GITHUB_REPOSITORY env var: "
                       +:+ Quote (Getenv "GITHUB_REPOSITORY"))).
  { unfold githubActionOptions. cbv zeta.
    assert (Hi : (IndexRune (Getenv "GITHUB_REPOSITORY") "/" <? 1)%Z = true).
    { apply Z.ltb_lt. destruct Hrepo as [Hn|[r Hr]].
      - rewrite (IndexRune_absent _ Hn). lia.
      - rewrite Hr. simpl. lia. }
    now rewrite Hi. }
  split; [exact E|]. rewrite E. reflexivity.
Qed.

End Options.

(** * More concrete runs *)

Module DemoMore.
Import Demo.

Definition closed : @options lib := optsFor (issuesEvent "closed" None).

Definition commented : @options lib :=
  optsFor {| e_Name := "issue_comment"; e_Changes_Body_From := "";
             e_Action := "created"; e_Issue := Some eventIssue;
             e_Label := None; e_Comment := None |}.

Definition note (body : string) (t : nat) : @comment lib :=
  @Build_comment lib bot body t.

Definition discussed : @graphqlIssue lib :=
  {| g_ID := "D"; g_URL := "https://github.com/octo/r/issues/7";
     g_Title := "Flaky test"; g_Body := ""; g_Author := bot;
     g_Labels := [bug];
     g_Comments := [note "a" 1; note "MATCH-b" 2; note "c" 3] |}.

Definition matching : @options lib :=
  {| user := "octo"; opt_event := issuesEvent "edited" None;
     summaryCommentRegex := literalRegexp "MATCH" |}.

Lemma section_without_match_witness :
  @issueSection lib labeledBug S = sectionHeading S +:+ "_No update_" +:+ nl.
Proof. exact (@section_without_match lib labeledBug S eq_refl). Defined.

Lemma section_with_match_witness :
  @issueSection lib matching discussed
  = sectionHeading discussed +:+ replaceHeadings "MATCH-b" +:+ nl +:+ nl +:+ nl
      +:+ "_Updated " +:+ "2024-05-01 10:00:00 UTC"
      +:+ " by @" +:+ "bot" +:+ "_" +:+ nl +:+ nl.
Proof.
  exact (@section_with_match lib matching discussed
           [note "a" 1] [note "c" 3] (note "MATCH-b" 2)
           eq_refl eq_refl eq_refl).
Defined.


Lemma issue_labels_cascade_witness :
  @testableMain lib hub (Ok commented) []
  = @updateSummaryIssues lib hub commented [bug] [].
Proof.
  exact (proj1 (@issue_labels_cascade lib hub commented eventIssue [] eq_refl)
               eq_refl).
Defined.

Lemma quiet_events_witness :
  @testableMain lib hub (Ok closed) [] = (Ok tt, []).
Proof.
  apply (@quiet_events lib hub closed []). right.
  repeat split; try discriminate.
  exists eventIssue. split; [reflexivity|]. left. discriminate.
Defined.

(** An environment with a repository, an event file and an event name. *)
Definition envLib : GoLib :=
  {| Time := nat;
     Format := fun _ _ => "2024-05-01 10:00:00 UTC";
     Quote := fun s => dquote +:+ s +:+ dquote;
     QueryEscape := fun s => s;
     Getenv := fun k =>
       if k =? "GITHUB_REPOSITORY" then "octo/repo"
       else if k =? "GITHUB_EVENT_PATH" then "/github/event.json"
       else if k =? "GITHUB_EVENT_NAME" then "issues"
       else "https://github.com";
     Quote_plain := fun s _ => eq_refl |}.

Definition envHost : @Host envLib :=
  {| ReadFile := fun _ => inl "{}";
     Unmarshal := fun _ e => inl e;
     ParseFlags := fun _ => inl "";
     Compile := fun p => inl (literalRegexp p) |}.

Definition envOptions : @options envLib :=
  {| user := "octo";
     opt_event := {| e_Name := "issues"; e_Changes_Body_From := "";
                     e_Action := ""; e_Issue := None; e_Label := None;
                     e_Comment := None |};
     summaryCommentRegex := literalRegexp "" |}.

Lemma options_user_is_owner_witness :
  (exists rest, @Getenv envLib "GITHUB_REPOSITORY" = user envOptions +:+ "/" +:+ rest)
  /\ user envOptions <> "" /\ no_slash (user envOptions) = true
  /\ @Getenv envLib "GITHUB_EVENT_PATH" <> ""
  /\ @Getenv envLib "GITHUB_EVENT_NAME" <> "".
Proof. exact (@options_user_is_owner envLib envHost [] envOptions eq_refl). Defined.

(** An environment without GITHUB_REPOSITORY. *)
Definition bareLib : GoLib :=
  {| Time := nat;
     Format := fun _ _ => "";
     Quote := fun s => dquote +:+ s +:+ dquote;
     QueryEscape := fun s => s;
     Getenv := fun _ => "";
     Quote_plain := fun s _ => eq_refl |}.

Definition bareHost : @Host bareLib :=
  {| ReadFile := fun _ => inr "open : no such file or directory";
     Unmarshal := fun _ e => inl e;
     ParseFlags := fun _ => inl "";
     Compile := fun p => inl (literalRegexp p) |}.

Definition bareHub : @GitHub bareLib :=
  {| endpoint := fun _ _ => Success [] |}.

Lemma bad_repository_stops_run_witness :
  @githubActionOptions bareLib bareHost []
  = Err ("invalid value for GITHUB_REPOSITORY env var: " +:+ dquote +:+ dquote)
  /\ @testableMain bareLib bareHub (@githubActionOptions bareLib bareHost []) []
     = (Err ("invalid value for GITHUB_REPOSITORY env var: " +:+ dquote +:+ dquote),
        []).
Proof.
  exact (@bad_repository_stops_run bareLib bareHost bareHub [] []
           (or_introl eq_refl)).
Defined.

End DemoMore.
